(** * RAGIKA API service: ingestion and query pipelines

    A shallow embedding of [services/api/src/index.ts]: the chunker, the
    clients of the embedding, rerank, generation and vector-store backends,
    and the two route handlers [/ingest/text] and [/chat/query].

    - Values that cross the wire are untyped in the source ([any]); they are
      modelled by [jsval], the JavaScript values a parsed JSON body can
      hold, plus [undefined].
    - [async] functions are programs of the monad [Prog]: a tree of HTTP
      calls (and [uuidv4] draws) with exceptions; [try]/[catch] is [catch].
      A program runs against an arbitrary world [Env], which answers every
      call, and leaves the trace of the calls it made.
    - [console.error] logging is not modelled. *)

From Stdlib Require Import String Ascii ZArith QArith Qcanon List Sorted DecimalString.
From stdpp Require Import base list numbers strings sorting.

Set Warnings "-register-all".

Local Open Scope string_scope.
Local Open Scope list_scope.
Local Open Scope nat_scope.

(** ** Strings

    A string is a [string] of 8-bit characters, each standing for the UTF-16
    code unit of the same number (U+0000 to U+00FF). *)

(** The characters matched by the regular expression class [\s] in that
    range: TAB, LF, VT, FF, CR, SPACE and NBSP. *)
Definition is_space (c : ascii) : bool :=
  let n := nat_of_ascii c in
  Nat.eqb n 9 || Nat.eqb n 10 || Nat.eqb n 11 || Nat.eqb n 12
  || Nat.eqb n 13 || Nat.eqb n 32 || Nat.eqb n 160.

(** [Array.prototype.join]. *)
Definition join (sep : string) (parts : list string) : string :=
  String.concat sep parts.

(** Decimal rendering of an array index or length. *)
Definition dec (n : nat) : string := NilZero.string_of_uint (Nat.to_uint n).

Fixpoint drop_spaces (cs : list ascii) : list ascii :=
  match cs with
  | c :: r => if is_space c then drop_spaces r else cs
  | [] => []
  end.

(** [String.prototype.trim]. *)
Definition trim (s : string) : string :=
  string_of_list_ascii
    (rev (drop_spaces (rev (drop_spaces (list_ascii_of_string s))))).

(** ** JavaScript values

    A number is an exact rational: every finite double is one, and the
    only arithmetic of the service, the sign of the difference of two
    scores, is exact on them. [NaN] is the [None] of the conversions that
    can produce it; the infinities, which a JSON numeral beyond the range
    of the doubles parses to, are left out. An object is the list of its
    own properties, and a lookup takes the first binding of a key. *)

Inductive jsval : Type :=
| JUndefined
| JNull
| JBool (b : bool)
| JNum (q : Qc)
| JStr (s : string)
| JArr (items : list jsval)
| JObj (props : list (string * jsval)).

Definition JNat (n : nat) : jsval := JNum (Qc_of_Z (Z.of_nat n)).

(** Exceptions: the runtime's [TypeError], [new Error(msg)] thrown by the
    service itself, and the rejection of an axios request (network error,
    timeout, or a status outside 2xx). *)
Inductive exn : Type :=
| TypeError
| Error (msg : string)
| AxiosError (detail : string).

Inductive result (A : Type) : Type :=
| Ok (a : A)
| Err (e : exn).
Arguments Ok {A} a.
Arguments Err {A} e.

Definition rbind {A B} (r : result A) (f : A → result B) : result B :=
  match r with Ok a => f a | Err e => Err e end.

Definition rmap {A B} (f : A → B) (r : result A) : result B :=
  rbind r (λ a, Ok (f a)).

(** [xs.map(f)] for a callback that may throw. *)
Fixpoint mapR {A B} (f : A → result B) (xs : list A) : result (list B) :=
  match xs with
  | [] => Ok []
  | x :: r => rbind (f x) (λ y, rbind (mapR f r) (λ ys, Ok (y :: ys)))
  end.

(** Truthiness ([!v], [v && ...], [v || ...]). *)
Definition truthy (v : jsval) : bool :=
  match v with
  | JUndefined | JNull => false
  | JBool b => b
  | JNum q => bool_decide (q ≠ Qc_of_Z 0)
  | JStr s => bool_decide (s ≠ "")
  | JArr _ | JObj _ => true
  end.

Definition isArray (v : jsval) : bool :=
  match v with JArr _ => true | _ => false end.

Fixpoint assoc (k : string) (props : list (string * jsval)) : option jsval :=
  match props with
  | [] => None
  | (k', v) :: r => if String.eqb k k' then Some v else assoc k r
  end.

(** An own property of an object, or [undefined]. *)
Definition own (props : list (string * jsval)) (k : string) : jsval :=
  default JUndefined (assoc k props).

(** [v.k] for a data key [k] other than [length]: reading a property of
    [undefined] or [null] throws; arrays, strings, numbers and booleans
    have no such property. *)
Definition member (v : jsval) (k : string) : result jsval :=
  match v with
  | JUndefined | JNull => Err TypeError
  | JObj props => Ok (own props k)
  | _ => Ok JUndefined
  end.

(** [v.length]. *)
Definition js_length (v : jsval) : result jsval :=
  match v with
  | JUndefined | JNull => Err TypeError
  | JArr xs => Ok (JNat (length xs))
  | JStr s => Ok (JNat (String.length s))
  | JObj props => Ok (own props "length")
  | _ => Ok JUndefined
  end.

(** [xs[i]] on an array: the element, or [undefined] out of range. *)
Definition at_index (xs : list jsval) (i : nat) : jsval :=
  default JUndefined (xs !! i).

(** [v[0]]. *)
Definition first_of (v : jsval) : result jsval :=
  match v with
  | JUndefined | JNull => Err TypeError
  | JArr xs => Ok (at_index xs 0)
  | JStr s => Ok (match s with String c _ => JStr (String c "") | "" => JUndefined end)
  | JObj props => Ok (own props "0")
  | _ => Ok JUndefined
  end.

Definition has_own (props : list (string * jsval)) (k : string) : bool :=
  bool_decide (is_Some (assoc k props)).

(** The runtime's conversions between numbers and strings are parameters of
    the development: [Number::toString] and [StringToNumber] ([None] is
    [NaN]). *)
Record Runtime : Type := {
  Number_toString : Qc → string;
  StringToNumber : string → option Qc
}.

Section Conversions.
Variable rt : Runtime.

(** [ToString(v)], as a template literal applies it. A parsed JSON object
    has no callable own property, so one that carries its own [toString]
    cannot be converted. *)
Fixpoint toStr (v : jsval) : result string :=
  match v with
  | JUndefined => Ok "undefined"
  | JNull => Ok "null"
  | JBool b => Ok (if b then "true" else "false")
  | JNum q => Ok (Number_toString rt q)
  | JStr s => Ok s
  | JArr xs =>
      rmap (join ",")
        ((fix go (l : list jsval) : result (list string) :=
            match l with
            | [] => Ok []
            | x :: r =>
                rbind (match x with
                       | JUndefined | JNull => Ok ""
                       | _ => toStr x
                       end)
                  (λ s, rbind (go r) (λ ss, Ok (s :: ss)))
            end) xs)
  | JObj props =>
      if has_own props "toString" then Err TypeError
      else Ok "[object Object]"
  end.

(** The method call [v.toString()]. *)
Definition toString (v : jsval) : result string :=
  match v with
  | JUndefined | JNull => Err TypeError
  | _ => toStr v
  end.

(** [ToNumber(v)]; [None] is [NaN]. *)
Definition toNumber (v : jsval) : result (option Qc) :=
  match v with
  | JUndefined => Ok None
  | JNull => Ok (Some (Qc_of_Z 0))
  | JBool b => Ok (Some (Qc_of_Z (if b then 1 else 0)))
  | JNum q => Ok (Some q)
  | JStr s => Ok (StringToNumber rt s)
  | JArr _ | JObj _ => rmap (StringToNumber rt) (toStr v)
  end.

(** The sign of [b - a]; [None] when the difference is [NaN]. The left
    operand is converted first. *)
Definition minus_sign (b a : jsval) : result (option comparison) :=
  rbind (toNumber b) (λ nb,
  rbind (toNumber a) (λ na,
    Ok (match nb, na with
        | Some x, Some y => Some (x ?= y)%Qc
        | _, _ => None
        end))).

(** [v > 0]. *)
Definition gt_zero (v : jsval) : result bool :=
  rmap (λ n, match n with
             | Some x => bool_decide (Qc_of_Z 0 < x)%Qc
             | None => false
             end) (toNumber v).
End Conversions.

(** [v.trim()]: only a string has the method. *)
Definition js_trim (v : jsval) : result string :=
  match v with
  | JStr s => Ok (trim s)
  | _ => Err TypeError
  end.

(** [v === 0]. *)
Definition is_zero (v : jsval) : bool :=
  match v with
  | JNum q => bool_decide (q = Qc_of_Z 0)
  | _ => false
  end.

(** [xs.slice(0, e)] for an integer [e]: a negative end counts from the
    back. *)
Definition slice0 {A} (xs : list A) (e : Z) : list A :=
  let len := Z.of_nat (length xs) in
  let final := if (e <? 0)%Z then Z.max (len + e) 0 else Z.min e len in
  take (Z.to_nat final) xs.

(** [xs.map((x, i) => f x i)]. *)
Fixpoint mapi_from {A B} (i : nat) (f : A → nat → B) (xs : list A) : list B :=
  match xs with
  | [] => []
  | x :: r => f x i :: mapi_from (S i) f r
  end.

Definition mapi {A B} (f : A → nat → B) (xs : list A) : list B :=
  mapi_from 0 f xs.

(** ** Chunker *)

Definition cons_head (c : ascii) (parts : list string) : list string :=
  match parts with
  | p :: r => String c p :: r
  | [] => [String c ""]
  end.

(** [text.split(/\s+/)], scanning left to right; [in_run] says that the
    previous character was white space, so that a run of white space is one
    separator. The part under construction is the head of the result. *)
Fixpoint split_from (in_run : bool) (text : string) : list string :=
  match text with
  | "" => [""]
  | String c rest =>
      if is_space c then
        if in_run then split_from true rest else "" :: split_from true rest
      else cons_head c (split_from false rest)
  end.

Definition split_ws (text : string) : list string := split_from false text.

(** The [for] loop of [chunkText], with its three mutable variables. *)
Fixpoint chunk_loop (maxTokens : Z) (words chunks current : list string)
    (count : Z) : list string * list string :=
  match words with
  | [] => (chunks, current)
  | word :: rest =>
      let current := current ++ [word] in
      let count := (count + 1)%Z in
      if (maxTokens <=? count)%Z
      then chunk_loop maxTokens rest (chunks ++ [join " " current]) [] 0%Z
      else chunk_loop maxTokens rest chunks current count
  end.

Definition chunkText (text : string) (maxTokens : Z) : list string :=
  let words := split_ws text in
  let '(chunks, current) := chunk_loop maxTokens words [] [] 0%Z in
  if (0 <? length current)%nat then chunks ++ [join " " current] else chunks.

(** ** Configuration (the environment constants of the module) *)

Record Config : Type := {
  EMBEDDINGS_BASE_URL : string;
  RERANK_BASE_URL : string;
  LLM_PROVIDER : string;
  LLM_BASE_URL : string;
  LLM_MODEL : string;
  QDRANT_URL : string;
  COLLECTION_NAME : string;
  TOP_K : Qc;
  (** the integer part of [MAX_CONTEXT], which is all [slice] reads of it *)
  MAX_CONTEXT : Z
}.

(** ** Effects *)

(** The call sites of the module, one per [axios] call in the source. *)
Inductive Site : Type :=
| CollectionCheck
| CollectionCreate
| Embed
| Rerank
| GenerateOllama
| GenerateOpenAI
| Upsert
| Search.

Inductive Method : Type := GET | PUT | POST.

Record Call : Type := {
  site : Site;
  method : Method;
  url : string;
  body : jsval;
  timeout : option N
}.

(** What axios settles a request with: the response's [data], or a
    rejection. *)
Inductive Reply : Type :=
| Resolved (data : jsval)
| Rejected (detail : string).

Inductive Prog (A : Type) : Type :=
| Ret (a : A)
| Throw (e : exn)
| Http (c : Call) (k : Reply → Prog A)
| Uuid (k : string → Prog A).
Arguments Ret {A} a.
Arguments Throw {A} e.
Arguments Http {A} c k.
Arguments Uuid {A} k.

Fixpoint bind {A B} (p : Prog A) (f : A → Prog B) : Prog B :=
  match p with
  | Ret a => f a
  | Throw e => Throw e
  | Http c k => Http c (λ r, bind (k r) f)
  | Uuid k => Uuid (λ s, bind (k s) f)
  end.

(** [try { p } catch (e) { h e }]. *)
Fixpoint catch {A} (p : Prog A) (h : exn → Prog A) : Prog A :=
  match p with
  | Ret a => Ret a
  | Throw e => h e
  | Http c k => Http c (λ r, catch (k r) h)
  | Uuid k => Uuid (λ s, catch (k s) h)
  end.

Definition lift {A} (r : result A) : Prog A :=
  match r with Ok a => Ret a | Err e => Throw e end.

(** [await axios.get/put/post(...)]: the response data, or the rejection
    thrown. *)
Definition request (c : Call) : Prog jsval :=
  Http c (λ r, match r with
               | Resolved data => Ret data
               | Rejected detail => Throw (AxiosError detail)
               end).

Definition uuidv4 : Prog string := Uuid Ret.

Notation "'await' x <- p 'in' q" := (bind p (λ x, q))
  (at level 10, x name, p at level 100, q at level 200,
   format "'[v' 'await'  x  <-  p  'in' '/' q ']'").

(** [xs.map(f)] where [f] awaits nothing but draws identifiers. *)
Fixpoint mapP {A B} (f : A → nat → Prog B) (i : nat) (xs : list A)
    : Prog (list B) :=
  match xs with
  | [] => Ret []
  | x :: r => await y <- f x i in await ys <- mapP f (S i) r in Ret (y :: ys)
  end.

(** *** Worlds and runs *)

Inductive Event : Type :=
| EvHttp (c : Call) (r : Reply)
| EvUuid (s : string).

(** A world answers each call from its state. *)
Record Env (W : Type) : Type := {
  answer : Call → W → Reply * W;
  draw : W → string * W
}.
Arguments answer {W} e c w.
Arguments draw {W} e w.

Record Run (W A : Type) : Type := {
  outcome : result A;
  trace : list Event;
  final : W
}.
Arguments outcome {W A} r.
Arguments trace {W A} r.
Arguments final {W A} r.

Definition logged {W A} (ev : Event) (r : Run W A) : Run W A :=
  {| outcome := outcome r; trace := ev :: trace r; final := final r |}.

Fixpoint run {W A} (env : Env W) (p : Prog A) (w : W) : Run W A :=
  match p with
  | Ret a => {| outcome := Ok a; trace := []; final := w |}
  | Throw e => {| outcome := Err e; trace := []; final := w |}
  | Http c k =>
      let '(r, w') := answer env c w in
      logged (EvHttp c r) (run env (k r) w')
  | Uuid k =>
      let '(s, w') := draw env w in
      logged (EvUuid s) (run env (k s) w')
  end.

(** The HTTP calls of a trace. *)
Definition calls (t : list Event) : list Call :=
  omap (λ ev, match ev with EvHttp c _ => Some c | EvUuid _ => None end) t.


(** ** The service *)

(** [v.k] where [v] is known not to be [undefined] or [null]. *)
Definition prop (v : jsval) (k : string) : jsval :=
  match v with
  | JObj props => own props k
  | _ => JUndefined
  end.

(** [Array.prototype.sort] with a comparison function, as a stable
    insertion sort. [cmp a b] is the sign of [compareFn(a, b)]: [Gt] puts
    [b] first, [None] ([NaN]) counts as zero; an exception of the comparison
    function ends the sort. Every stable sort agrees with it when the
    comparison function is a consistent ordering. *)
Section Sort.
Context {A : Type}.
Variable cmp : A → A → result (option comparison).

Fixpoint insert (x : A) (l : list A) : result (list A) :=
  match l with
  | [] => Ok [x]
  | y :: r =>
      rbind (cmp x y) (λ c,
        match c with
        | Some Gt => rbind (insert x r) (λ r', Ok (y :: r'))
        | _ => Ok (x :: l)
        end)
  end.

Fixpoint sortR (l : list A) : result (list A) :=
  match l with
  | [] => Ok []
  | x :: r => rbind (sortR r) (insert x)
  end.
End Sort.

(** The HTTP reply of a route handler: [reply.status(s).send(payload)]. *)
Record Response : Type := {
  status : nat;
  payload : jsval
}.

Record Citation : Type := {
  documentId : jsval;
  chunkId : string
}.

Definition citation_json (c : Citation) : jsval :=
  JObj [("documentId", documentId c); ("chunkId", JStr (chunkId c))].

Definition chat_response (answer : string) (citations : list Citation) : jsval :=
  JObj [("answer", JStr answer); ("citations", JArr (citation_json <$> citations))].

Definition NO_INFORMATION : string :=
  "I'm sorry, I couldn't find any information relevant to your question.".

(** The fields that the two routes destructure from [request.body], of
    declared types [IngestTextRequest] and [ChatQueryRequest]; a field that
    is absent is [undefined]. The body itself is whatever the request
    carried, also [null] or [undefined]: see [ingest_fields] and
    [query_fields]. *)
Record IngestTextRequest : Type := {
  it_text : jsval;
  it_category : jsval;
  it_title : jsval
}.

Record ChatQueryRequest : Type := {
  cq_query : jsval;
  cq_category : jsval
}.

Section Service.
Variable rt : Runtime.
Variable cfg : Config.

Definition collection_url : string :=
  QDRANT_URL cfg +:+ "/collections/" +:+ COLLECTION_NAME cfg.

Definition check_call : Call :=
  {| site := CollectionCheck; method := GET; url := collection_url;
     body := JUndefined; timeout := None |}.

Definition create_call : Call :=
  {| site := CollectionCreate; method := PUT; url := collection_url;
     body := JObj [("vectors",
               JObj [("size", JNat 1024); ("distance", JStr "Cosine")])];
     timeout := None |}.

Definition ensureCollection : Prog unit :=
  catch
    (await _ <- request check_call in Ret tt)
    (λ err,
      catch
        (await _ <- request create_call in Ret tt)
        (λ e, Throw e)).

Definition embed_call (texts : list jsval) : Call :=
  {| site := Embed; method := POST;
     url := EMBEDDINGS_BASE_URL cfg +:+ "/embed";
     body := JObj [("inputs", JArr texts)]; timeout := Some 30000%N |}.

Definition embedTexts (texts : list jsval) : Prog (list jsval) :=
  catch
    (await data <- request (embed_call texts) in
     if truthy data && isArray (prop data "embeddings") then
       match prop data "embeddings" with
       | JArr vectors => Ret vectors
       | _ => Throw TypeError
       end
     else Throw (Error "Invalid response from embeddings service"))
    (λ err, Throw err).

(** [contexts.map((_, idx) => idx)]. *)
Definition identity_order (contexts : list jsval) : list nat :=
  mapi (λ _ idx, idx) contexts.

(** The three steps applied to the scores array of a rerank response:
    pair each score with its index, sort by [b.score - a.score], keep the
    indices. *)
Definition score_order (scores : list jsval) : result (list nat) :=
  rmap (map snd)
    (sortR (λ a b : jsval * nat, minus_sign rt (fst b) (fst a))
       (mapi (λ score idx, (score, idx)) scores)).

Definition rerank_call (query : jsval) (contexts : list jsval) : Call :=
  {| site := Rerank; method := POST;
     url := RERANK_BASE_URL cfg +:+ "/rerank";
     body := JObj [("query", query); ("texts", JArr contexts)];
     timeout := Some 30000%N |}.

Definition rerankContexts (query : jsval) (contexts : list jsval)
    : Prog (list nat) :=
  if negb (truthy (JStr (RERANK_BASE_URL cfg))) then
    Ret (identity_order contexts)
  else
    catch
      (await data <- request (rerank_call query contexts) in
       if truthy data && isArray (prop data "scores") then
         match prop data "scores" with
         | JArr scores => lift (score_order scores)
         | _ => Throw TypeError
         end
       else Ret (identity_order contexts))
      (λ err, Ret (identity_order contexts)).

Definition ollama_call (prompt : string) : Call :=
  {| site := GenerateOllama; method := POST;
     url := LLM_BASE_URL cfg +:+ "/api/generate";
     body := JObj [("model", JStr (LLM_MODEL cfg)); ("prompt", JStr prompt);
                   ("stream", JBool false)];
     timeout := Some 300000%N |}.

Definition openai_call (prompt : string) : Call :=
  {| site := GenerateOpenAI; method := POST;
     url := LLM_BASE_URL cfg +:+ "/v1/chat/completions";
     body := JObj [("model", JStr (LLM_MODEL cfg));
                   ("messages", JArr [
                      JObj [("role", JStr "system");
                            ("content", JStr "You are a helpful assistant.")];
                      JObj [("role", JStr "user"); ("content", JStr prompt)]]);
                   ("temperature", JNum (Q2Qc (2 # 10)));
                   ("top_p", JNum (Q2Qc (95 # 100)))];
     timeout := Some 300000%N |}.

(** The body of the second [try] of [generateAnswer] after its request:
    [res.data.choices[0].message.content] when [res.data],
    [res.data.choices] and [res.data.choices.length > 0] hold, and the
    error thrown otherwise. *)
Definition first_choice_content (data : jsval) : result jsval :=
  if truthy data && truthy (prop data "choices") then
    rbind (js_length (prop data "choices")) (λ len,
    rbind (gt_zero rt len) (λ positive : bool,
      if positive then
        rbind (first_of (prop data "choices")) (λ choice,
        rbind (member choice "message") (λ message,
          member message "content"))
      else Err (Error "Invalid response from LLM provider")))
  else Err (Error "Invalid response from LLM provider").

(** The value returned is [res.data.response], respectively
    [res.data.choices[0].message.content], whatever it is: the source
    casts it to [string] without a check. *)
Definition generateAnswer (prompt : string) : Prog jsval :=
  if String.eqb (LLM_PROVIDER cfg) "ollama" then
    catch
      (await data <- request (ollama_call prompt) in
       lift (member data "response"))
      (λ err, Throw err)
  else
    catch
      (await data <- request (openai_call prompt) in
       lift (first_choice_content data))
      (λ err, Throw err).

Definition send (code : nat) (v : jsval) : Response :=
  {| status := code; payload := v |}.

(** *** [POST /ingest/text] *)

Definition upsert_call (points : list jsval) : Call :=
  {| site := Upsert; method := PUT;
     url := QDRANT_URL cfg +:+ "/collections/" +:+ COLLECTION_NAME cfg
            +:+ "/points?wait=true";
     body := JObj [("points", JArr points)]; timeout := Some 60000%N |}.

(** [chunkText(text, 500)] on the untyped field: only a string has
    [split]. *)
Definition chunk_field (text : jsval) : result (list string) :=
  match text with
  | JStr s => Ok (chunkText s 500)
  | _ => Err TypeError
  end.

Definition point (documentId : string) (category title : jsval)
    (vectors : list jsval) (chunk : string) (idx : nat) : Prog jsval :=
  await id <- uuidv4 in
  Ret (JObj [("id", JStr id);
             ("payload", JObj [("documentId", JStr documentId);
                               ("category", category);
                               ("text", JStr chunk);
                               ("title", if truthy title then title else JStr "")]);
             ("vector", at_index vectors idx)]).

(** The handler from the destructured fields on: the validation and the
    [try]. *)
Definition ingestText (req : IngestTextRequest) : Prog Response :=
  let text := it_text req in
  let category := it_category req in
  let title := it_title req in
  if negb (truthy text) || negb (truthy category) then
    Ret (send 400 (JObj [("error", JStr "text and category are required")]))
  else
    catch
      (await _ <- ensureCollection in
       await documentId <- uuidv4 in
       await chunks <- lift (chunk_field text) in
       await vectors <- embedTexts (JStr <$> chunks) in
       await points <- mapP (point documentId category title vectors) 0 chunks in
       await _ <- request (upsert_call points) in
       Ret (send 200 (JObj [("documentId", JStr documentId);
                            ("chunks", JNat (length points))])))
      (λ err, Ret (send 500 (JObj [("error", JStr "Failed to ingest document")]))).

(** [const { text, category, title } = request.body], the first statement
    of the handler, before its [try]: destructuring [null] or [undefined]
    throws, and any other value is read property by property. *)
Definition ingest_fields (body : jsval) : result IngestTextRequest :=
  rbind (member body "text") (λ text,
  rbind (member body "category") (λ category,
  rbind (member body "title") (λ title,
    Ok {| it_text := text; it_category := category; it_title := title |}))).

(** The handler of [POST /ingest/text] on the body of the request. An
    exception it throws is left to the framework. *)
Definition postIngestText (body : jsval) : Prog Response :=
  await req <- lift (ingest_fields body) in
  ingestText req.

(** *** [POST /chat/query] *)

Definition searchFilter (category : jsval) : jsval :=
  if truthy category then
    JObj [("must", JArr [JObj [("key", JStr "category");
                               ("match", JObj [("value", category)])]])]
  else JUndefined.

Definition search_call (queryVector filter : jsval) : Call :=
  {| site := Search; method := POST;
     url := QDRANT_URL cfg +:+ "/collections/" +:+ COLLECTION_NAME cfg
            +:+ "/points/search";
     body := JObj [("vector", queryVector); ("top", JNum (TOP_K cfg));
                   ("with_payload", JBool true); ("with_vector", JBool false);
                   ("filter", filter)];
     timeout := Some 60000%N |}.

(** [searchRes.data?.result || []]. *)
Definition hits_of (data : jsval) : jsval :=
  let result :=
    match data with
    | JUndefined | JNull => JUndefined
    | _ => prop data "result"
    end in
  if truthy result then result else JArr [].

(** [hit.payload.text]. *)
Definition context_of (hit : jsval) : result jsval :=
  rbind (member hit "payload") (λ p, member p "text").

(** The citation of a hit:
    [{ documentId: hit.payload.documentId, chunkId: hit.id.toString() }]. *)
Definition cite (hit : jsval) : result Citation :=
  rbind (member hit "payload") (λ p,
  rbind (member p "documentId") (λ d,
  rbind (member hit "id") (λ id,
  rbind (toString rt id) (λ c,
    Ok {| documentId := d; chunkId := c |})))).

Definition selectedIndices (order : list nat) : list nat :=
  slice0 order (MAX_CONTEXT cfg).

Definition selectedContexts (contexts : list jsval) (order : list nat)
    : list jsval :=
  map (λ i, at_index contexts i) (selectedIndices order).

Definition citations (hits : list jsval) (order : list nat)
    : result (list Citation) :=
  mapR (λ i, cite (at_index hits i)) (selectedIndices order).

(** The text of one context of the prompt, [`[${i + 1}] ${ctx}`]. *)
Definition marked (ctx : jsval) (i : nat) : result string :=
  rmap (λ s, "[" +:+ dec (i + 1) +:+ "] " +:+ s) (toStr rt ctx).

Definition NL : string := String (ascii_of_nat 10) "".

Definition contextString (selected : list jsval) : result string :=
  rmap (join (NL +:+ NL)) (mapR (λ r, r) (mapi marked selected)).

Definition INSTRUCTIONS : string :=
  "You are an institutional knowledge assistant. Use the context provided to answer the question. Respond in a concise and clear manner. Cite the source of your information using the bracketed numbers corresponding to the context. If you do not know the answer based on the context, say you don't know.".

Definition compose_prompt (contextString : string) (query : jsval) : result string :=
  rmap (λ q, INSTRUCTIONS +:+ NL +:+ NL +:+ "Context:" +:+ NL
             +:+ contextString +:+ NL +:+ NL +:+ "Question: " +:+ q
             +:+ NL +:+ "Answer:")
       (toStr rt query).

(** The handler from the reranked order on: select, cite, compose,
    generate, respond. *)
Definition answerFrom (query : jsval) (hits contexts : list jsval)
    (order : list nat) : Prog Response :=
  let selected := selectedContexts contexts order in
  await cits <- lift (citations hits order) in
  await ctxs <- lift (contextString selected) in
  await prompt <- lift (compose_prompt ctxs query) in
  await rawAnswer <- generateAnswer prompt in
  await answer <- lift (js_trim rawAnswer) in
  Ret (send 200 (chat_response answer cits)).

(** The handler from the search response on. *)
Definition afterSearch (query : jsval) (data : jsval) : Prog Response :=
  let hits := hits_of data in
  await len <- lift (js_length hits) in
  if is_zero len then
    Ret (send 200 (chat_response NO_INFORMATION []))
  else
    match hits with
    | JArr hs =>
        await contexts <- lift (mapR context_of hs) in
        await order <- rerankContexts query contexts in
        answerFrom query hs contexts order
    | _ => Throw TypeError
    end.

(** The handler from the destructured fields on: the validation and the
    [try]. *)
Definition chatQuery (req : ChatQueryRequest) : Prog Response :=
  let query := cq_query req in
  let category := cq_category req in
  if negb (truthy query) then
    Ret (send 400 (JObj [("error", JStr "query is required")]))
  else
    catch
      (await _ <- ensureCollection in
       await vectors <- embedTexts [query] in
       let queryVector := at_index vectors 0 in
       let filter := searchFilter category in
       await data <- request (search_call queryVector filter) in
       afterSearch query data)
      (λ err, Ret (send 500 (JObj [("error", JStr "Failed to process chat query")]))).

(** [const { query, category } = request.body], before the [try]. *)
Definition query_fields (body : jsval) : result ChatQueryRequest :=
  rbind (member body "query") (λ query,
  rbind (member body "category") (λ category,
    Ok {| cq_query := query; cq_category := category |})).

(** The handler of [POST /chat/query] on the body of the request. *)
Definition postChatQuery (body : jsval) : Prog Response :=
  await req <- lift (query_fields body) in
  chatQuery req.

(** *** [GET /healthz] *)

Definition healthz : Prog Response :=
  catch
    (await _ <- ensureCollection in
     Ret (send 200 (JObj [("status", JStr "ok")])))
    (λ err, Ret (send 500 (JObj [("status", JStr "error")]))).
End Service.

(** ** Vocabulary of the properties *)

(** *** Runs *)

(** A run continued by another: the traces follow each other. *)
Definition after {W A} (t : list Event) (r : Run W A) : Run W A :=
  {| outcome := outcome r; trace := t ++ trace r; final := final r |}.

Definition failed {W A B} (r : Run W A) (e : exn) : Run W B :=
  {| outcome := Err e; trace := trace r; final := final r |}.

Definition succeeds {A} (r : result A) : Prop := ∃ a, r = Ok a.

(** Every HTTP call a program can make, whatever it is answered,
    satisfies [P]. *)
Fixpoint only_calls {A} (P : Call → Prop) (p : Prog A) : Prop :=
  match p with
  | Ret _ | Throw _ => True
  | Http c k => P c ∧ ∀ r, only_calls P (k r)
  | Uuid k => ∀ s, only_calls P (k s)
  end.

#[global] Instance Site_eq_dec : EqDecision Site.
Proof. solve_decision. Defined.

#[global] Instance Method_eq_dec : EqDecision Method.
Proof. solve_decision. Defined.

(** The number of collection-creation requests in a trace. *)
Definition creations (t : list Event) : nat :=
  length (filter (λ c, site c = CollectionCreate) (calls t)).

(** The write requests of a trace are those that are not [GET]. *)
Definition writes (t : list Event) : list Call :=
  filter (λ c, method c ≠ GET) (calls t).

(** *** Vector store *)

(** A vector store shows what was provisioned: once the existence check or
    the creation request has succeeded, the next existence check
    succeeds. *)
Definition visible {W} (env : Env W) (cfg : Config) (w : W) : Prop :=
  ∃ data w', answer env (check_call cfg) w = (Resolved data, w').

Definition observes_existence {W} (env : Env W) (cfg : Config) : Prop :=
  ∀ c w data w',
    (c = check_call cfg ∨ c = create_call cfg) →
    answer env c w = (Resolved data, w') →
    visible env cfg w'.

(** *** Reranker *)

(** The identity permutation [[0, 1, ..., n-1]]. *)
Definition identity_permutation (n : nat) : list nat := seq 0 n.

(** The order the reranker is specified to return on numeric scores:
    descending score, and the original order among equal scores. *)
Definition before (scores : list Qc) (i j : nat) : Prop :=
  match scores !! i, scores !! j with
  | Some x, Some y => (y < x)%Qc ∨ (x = y ∧ i < j)
  | _, _ => False
  end.

(** The rerank backend did not deliver a scores array: the request was
    rejected, or the response data has no array under [scores]. *)
Definition no_scores (r : Reply) : Prop :=
  match r with
  | Rejected _ => True
  | Resolved data => isArray (prop data "scores") = false
  end.

(** What [rerankContexts] returns, read off the reply to its request. *)
Definition order_for_reply (rt : Runtime) (contexts : list jsval) (r : Reply)
    : list nat :=
  match r with
  | Resolved data =>
      if truthy data && isArray (prop data "scores") then
        match prop data "scores" with
        | JArr scores =>
            match score_order rt scores with
            | Ok order => order
            | Err _ => identity_order contexts
            end
        | _ => identity_order contexts
        end
      else identity_order contexts
  | Rejected _ => identity_order contexts
  end.

(** The comparison function settles a pair in favour of the relation [R]:
    it returns, and puts first the one that [R] puts first. *)
Definition settles {A} (cmp : A → A → result (option comparison))
    (R : A → A → Prop) (x y : A) : Prop :=
  ∃ c, cmp x y = Ok c ∧ match c with Some Gt => R y x | _ => R x y end.

(** *** Generator *)

(** The call [generateAnswer] makes for a prompt. *)
Definition generate_call (cfg : Config) (prompt : string) : Call :=
  if String.eqb (LLM_PROVIDER cfg) "ollama" then ollama_call cfg prompt
  else openai_call cfg prompt.

(** What [generateAnswer] returns or throws, read off the reply to its
    request. *)
Definition answer_for_reply (rt : Runtime) (cfg : Config) (r : Reply)
    : result jsval :=
  match r with
  | Rejected detail => Err (AxiosError detail)
  | Resolved data =>
      if String.eqb (LLM_PROVIDER cfg) "ollama" then member data "response"
      else first_choice_content rt data
  end.

(** *** Query route *)

(** What [JSON.stringify] keeps of a request body: a property whose value
    is [undefined] is dropped, an [undefined] array element becomes
    [null]. *)
Fixpoint on_the_wire (v : jsval) : jsval :=
  match v with
  | JArr items =>
      JArr (map (λ x, match x with
                      | JUndefined => JNull
                      | _ => on_the_wire x
                      end) items)
  | JObj props =>
      JObj ((fix keep (ps : list (string * jsval)) : list (string * jsval) :=
               match ps with
               | [] => []
               | (k, x) :: r =>
                   match x with
                   | JUndefined => keep r
                   | _ => (k, on_the_wire x) :: keep r
                   end
               end) props)
  | _ => v
  end.

(** The object has an own property [k]. *)
Definition has_key (v : jsval) (k : string) : bool :=
  match v with
  | JObj props => has_own props k
  | _ => false
  end.

(** The generic failure reply of the query route. *)
Definition query_failure : Response :=
  send 500 (JObj [("error", JStr "Failed to process chat query")]).

(** The search came back without a hit: [hits.length === 0]. *)
Definition zero_hits (data : jsval) : bool :=
  match js_length (hits_of data) with
  | Ok len => is_zero len
  | Err _ => false
  end.

(** A call of the rerank or generation backends. *)
Definition rerank_or_generation (c : Call) : Prop :=
  site c = Rerank ∨ site c = GenerateOllama ∨ site c = GenerateOpenAI.

(** A retrieval hit as the vector store returns it for a point written by
    the ingestion route. *)
Record Hit : Type := {
  hit_id : string;
  hit_score : Qc;
  hit_documentId : string;
  hit_category : string;
  hit_text : string;
  hit_title : string
}.

Definition hit_json (h : Hit) : jsval :=
  JObj [("id", JStr (hit_id h)); ("score", JNum (hit_score h));
        ("payload", JObj [("documentId", JStr (hit_documentId h));
                          ("category", JStr (hit_category h));
                          ("text", JStr (hit_text h));
                          ("title", JStr (hit_title h))])].

Definition citation_of (h : Hit) : Citation :=
  {| documentId := JStr (hit_documentId h); chunkId := hit_id h |}.

(** *** Chunker *)

(** The white-space-delimited words of a text, after the specification of
    the chunker: the maximal runs of characters that are not white space.
    [cur] is the word being read. *)
Fixpoint words_acc (cur : string) (text : string) : list string :=
  match text with
  | "" => if bool_decide (cur = "") then [] else [cur]
  | String c rest =>
      if is_space c then
        if bool_decide (cur = "") then words_acc "" rest
        else cur :: words_acc "" rest
      else words_acc (cur +:+ String c "") rest
  end.

Definition words (text : string) : list string := words_acc "" text.

(** [ceil(n / d)] for a positive [d]. *)
Definition ceil_div (n d : nat) : nat := (n + d - 1) / d.

(** No character of the token is white space. *)
Fixpoint space_free (t : string) : Prop :=
  match t with
  | "" => True
  | String c r => is_space c = false ∧ space_free r
  end.

(** Only the last token of the list may be empty. *)
Fixpoint all_but_last_nonempty (ts : list string) : Prop :=
  match ts with
  | [] => True
  | t :: r =>
      match r with
      | [] => True
      | _ :: _ => t ≠ "" ∧ all_but_last_nonempty r
      end
  end.

(** Only the first and the last token of the list may be empty. *)
Definition inner_nonempty (ts : list string) : Prop :=
  match ts with
  | [] => True
  | _ :: r => all_but_last_nonempty r
  end.

(** The shape of what [split] returns, and of every run of consecutive
    tokens of it. *)
Definition tokens_ok (ts : list string) : Prop :=
  Forall space_free ts ∧ inner_nonempty ts.

(** ** Sample worlds and inputs *)

Module Sample.
(** A world that plays a script of replies, one per call, and draws one
    fixed identifier. *)
Definition scripted : Env (list Reply) :=
  {| answer := λ (_ : Call) (w : list Reply), match w with
                      | r :: rest => (r, rest)
                      | [] => (Rejected "no reply", [])
                      end;
     draw := λ w : list Reply, ("6f1c2a9e-0d3b-4c58-9a77-2b1e5d4c8f10", w) |}.

(** A vector store holding at most the one collection; its state says
    whether the collection exists. Creating it twice is a conflict. *)
Definition store : Env bool :=
  {| answer := λ (c : Call) (exists_ : bool),
       match site c with
       | CollectionCheck =>
           if exists_ then (Resolved (JObj [("status", JStr "ok")]), true)
           else (Rejected "404", false)
       | CollectionCreate =>
           if exists_ then (Rejected "409", true)
           else (Resolved (JObj [("result", JBool true)]), true)
       | _ => (Rejected "no route", exists_)
       end;
     draw := λ w : bool, ("6f1c2a9e-0d3b-4c58-9a77-2b1e5d4c8f10", w) |}.

(** A store whose existence check is never answered, while its creation
    request is. *)
Definition unobservable_store : Env unit :=
  {| answer := λ (c : Call) (w : unit),
       match site c with
       | CollectionCreate => (Resolved (JObj [("result", JBool true)]), tt)
       | _ => (Rejected "timeout", tt)
       end;
     draw := λ w : unit, ("6f1c2a9e-0d3b-4c58-9a77-2b1e5d4c8f10", w) |}.

(** A runtime for the examples, none of which renders or parses a
    number. *)
Definition rt : Runtime :=
  {| Number_toString := λ q, "NaN"; StringToNumber := λ s, None |}.

(** The defaults of the module. *)
Definition defaults : Config :=
  {| EMBEDDINGS_BASE_URL := "http://localhost:8080";
     RERANK_BASE_URL := "";
     LLM_PROVIDER := "ollama";
     LLM_BASE_URL := "http://localhost:11434";
     LLM_MODEL := "llama3.1:8b-instruct";
     QDRANT_URL := "http://localhost:6333";
     COLLECTION_NAME := "ragika";
     TOP_K := Qc_of_Z 20;
     MAX_CONTEXT := 8 |}.

Definition with_reranker (cfg : Config) (url : string) (max_context : Z)
    : Config :=
  {| EMBEDDINGS_BASE_URL := EMBEDDINGS_BASE_URL cfg;
     RERANK_BASE_URL := url;
     LLM_PROVIDER := LLM_PROVIDER cfg;
     LLM_BASE_URL := LLM_BASE_URL cfg;
     LLM_MODEL := LLM_MODEL cfg;
     QDRANT_URL := QDRANT_URL cfg;
     COLLECTION_NAME := COLLECTION_NAME cfg;
     TOP_K := TOP_K cfg;
     MAX_CONTEXT := max_context |}.

Definition reranked : Config :=
  with_reranker defaults "http://localhost:8081" 3.

(** The defaults with the chat-completion provider selected. *)
Definition chat_completion : Config :=
  {| EMBEDDINGS_BASE_URL := EMBEDDINGS_BASE_URL defaults;
     RERANK_BASE_URL := RERANK_BASE_URL defaults;
     LLM_PROVIDER := "openai_compat";
     LLM_BASE_URL := "http://localhost:8000";
     LLM_MODEL := LLM_MODEL defaults;
     QDRANT_URL := QDRANT_URL defaults;
     COLLECTION_NAME := COLLECTION_NAME defaults;
     TOP_K := TOP_K defaults;
     MAX_CONTEXT := MAX_CONTEXT defaults |}.

Definition hit (n : string) : Hit :=
  {| hit_id := "chunk-" +:+ n; hit_score := Qc_of_Z 1;
     hit_documentId := "doc-" +:+ n; hit_category := "handbook";
     hit_text := "text " +:+ n; hit_title := "" |}.

Definition five_hits : list Hit :=
  [hit "0"; hit "1"; hit "2"; hit "3"; hit "4"].

Definition ok : jsval := JObj [("status", JStr "ok")].

Definition scores (qs : list Q) : jsval :=
  JObj [("scores", JArr ((λ q, JNum (Q2Qc q)) <$> qs))].

(** A document of 500 words, each followed by a space. *)
Definition five_hundred_words : string :=
  String.concat "" (repeat "lorem " 500).
End Sample.

(** ** The web client

    The chat page of [apps/web]: [App.tsx], [ChatWindow.tsx],
    [ChatInput.tsx] and [MessageBubble.tsx]. A component state is the value
    of its [useState] cells; an event handler is the function from the
    state it was rendered with to what it does: the updaters it hands to
    the setters, the call of [onSend], the request it posts. An updater
    given to a setter as a function ([setChats(prev => ...)]) is a function
    on the state that is current when React applies it. The identifiers
    that [uuidv4] draws are parameters. *)

Module Web.

Inductive Role : Type := User | Assistant.

(** [content] and [citations] are typed [string] and [Citation[]] but hold
    what the server sent; [citations] is [undefined] when absent. *)
Record Message : Type := {
  msg_id : string;
  msg_role : Role;
  msg_content : jsval;
  msg_citations : jsval
}.

Record ChatMeta : Type := {
  chat_id : string;
  chat_title : string;
  chat_messages : list Message
}.

Record AppState : Type := {
  chats : list ChatMeta;
  currentChatId : option string
}.

(** *** [ChatInput] *)

Record KeyEvent : Type := {
  key : string;
  shiftKey : bool
}.

(** What a handler of [ChatInput] did: the argument of [onSend] when it
    called it, the value of the text area after it, and whether it called
    [preventDefault]. *)
Record Handled : Type := {
  sent : option string;
  value_after : string;
  prevented : bool
}.

(** [!disabled] for the optional property. *)
Definition enabled (disabled : option bool) : bool :=
  match disabled with
  | Some true => false
  | _ => true
  end.

(** The body shared by the two handlers:
    [if (value.trim().length > 0 && !disabled) { onSend(value.trim()); setValue('') }]. *)
Definition submit (disabled : option bool) (value : string) (prevented : bool)
    : Handled :=
  if (0 <? String.length (trim value)) && enabled disabled then
    {| sent := Some (trim value); value_after := ""; prevented := prevented |}
  else {| sent := None; value_after := value; prevented := prevented |}.

Definition handleKeyDown (disabled : option bool) (value : string)
    (e : KeyEvent) : Handled :=
  if String.eqb (key e) "Enter" && negb (shiftKey e) then
    submit disabled value true
  else {| sent := None; value_after := value; prevented := false |}.

Definition handleClick (disabled : option bool) (value : string) : Handled :=
  submit disabled value false.

(** The [disabled] attribute of the send button. *)
Definition button_disabled (disabled : option bool) (value : string) : bool :=
  negb (enabled disabled) || (String.length (trim value) =? 0).

(** *** [App] *)

Definition newChat (id : string) : ChatMeta :=
  {| chat_id := id; chat_title := "New Chat"; chat_messages := [] |}.

Definition handleNewChat (id : string) (st : AppState) : AppState :=
  {| chats := newChat id :: chats st; currentChatId := Some id |}.

Definition handleSelectChat (id : string) (st : AppState) : AppState :=
  {| chats := chats st; currentChatId := Some id |}.

Definition with_message (chat : ChatMeta) (m : Message) : ChatMeta :=
  {| chat_id := chat_id chat; chat_title := chat_title chat;
     chat_messages := chat_messages chat ++ [m] |}.

Definition userMessage (id content : string) : Message :=
  {| msg_id := id; msg_role := User; msg_content := JStr content;
     msg_citations := JUndefined |}.

(** The first updater of [handleSendMessage]: the user message is built,
    and its identifier drawn, inside the callback of [map], once for each
    chat with the identifier [chatId]; [fresh] is the supply of
    identifiers and [n] the number drawn so far. *)
Fixpoint appendUser (chatId content : string) (fresh : nat → string) (n : nat)
    (prev : list ChatMeta) : list ChatMeta :=
  match prev with
  | [] => []
  | chat :: rest =>
      if bool_decide (chat_id chat ≠ chatId) then
        chat :: appendUser chatId content fresh n rest
      else
        with_message chat (userMessage (fresh n) content)
        :: appendUser chatId content fresh (S n) rest
  end.

(** The updater that appends the assistant message, built before it. *)
Definition appendTo (chatId : string) (m : Message) (prev : list ChatMeta)
    : list ChatMeta :=
  map (λ chat, if bool_decide (chat_id chat ≠ chatId) then chat
               else with_message chat m) prev.

(** What [axios.post] settles with: the response data, or a rejection (no
    response, or a status outside 2xx). *)
Inductive ApiReply : Type :=
| Answered (data : jsval)
| Failed.

Definition API_ERROR : string :=
  "Error: unable to retrieve response from server. Please try again later.".

Definition errorMessage (id : string) : Message :=
  {| msg_id := id; msg_role := Assistant; msg_content := JStr API_ERROR;
     msg_citations := JUndefined |}.

(** The assistant message of the [try] block, or of its [catch]: reading
    [response.data.answer] throws when the data is [null] or [undefined],
    after the first identifier was drawn. *)
Definition assistantMessage (id1 id2 : string) (reply : ApiReply) : Message :=
  match reply with
  | Answered data =>
      match member data "answer" with
      | Ok answer =>
          {| msg_id := id1; msg_role := Assistant; msg_content := answer;
             msg_citations := prop data "citations" |}
      | Err _ => errorMessage id2
      end
  | Failed => errorMessage id1
  end.

(** What [handleSendMessage] does: without a current chat it creates one
    and returns; otherwise it appends the user message, posts the query,
    and appends the assistant message when the request has settled. *)
Inductive Sending : Type :=
| CreatesChat (update : AppState → AppState)
| Posts (first : list ChatMeta → list ChatMeta) (body : jsval)
    (finish : ApiReply → list ChatMeta → list ChatMeta).

Definition handleSendMessage (currentChatId : option string) (content : string)
    (newId : string) (fresh : nat → string) (id1 id2 : string) : Sending :=
  match currentChatId with
  | Some chatId =>
      if bool_decide (chatId ≠ "") then
        Posts (appendUser chatId content fresh 0)
          (JObj [("query", JStr content)])
          (λ reply, appendTo chatId (assistantMessage id1 id2 reply))
      else CreatesChat (handleNewChat newId)
  | None => CreatesChat (handleNewChat newId)
  end.

(** [chats.find(c => c.id === currentChatId) || null]. *)
Definition currentChat (st : AppState) : option ChatMeta :=
  match currentChatId st with
  | Some chatId => find (λ c, bool_decide (chat_id c = chatId)) (chats st)
  | None => None
  end.

(** *** [ChatWindow] *)

(** [chat?.messages || []] and [disabled={!chat}]. *)
Definition shown_messages (chat : option ChatMeta) : list Message :=
  match chat with Some c => chat_messages c | None => [] end.

Definition input_disabled (chat : option ChatMeta) : option bool :=
  Some (negb (bool_decide (is_Some chat))).

(** *** [MessageBubble] *)

(** The texts of the citation links of a bubble, in order: none for a user
    message or without citations, else one [[idx + 1]] per citation. Only
    an array has [map]. *)
Definition citation_links (rt : Runtime) (role : Role) (citations : jsval)
    : result (list string) :=
  match role with
  | User => Ok []
  | Assistant =>
      if truthy citations then
        rbind (js_length citations) (λ len,
        rbind (gt_zero rt len) (λ positive : bool,
          if positive then
            match citations with
            | JArr items => Ok (mapi (λ _ idx, "[" +:+ dec (idx + 1) +:+ "]") items)
            | _ => Err TypeError
            end
          else Ok []))
      else Ok []
  end.

(** *** The page and the service *)

(** What axios makes of a reply of the service: the parsed body for a
    status in 2xx, a rejection otherwise. *)
Definition settled (resp : Response) : ApiReply :=
  if (200 <=? status resp) && (status resp <? 300)
  then Answered (on_the_wire (payload resp))
  else Failed.

(** The fields that the query route destructures from a posted body that
    is an object, as the page's bodies are: [query_fields] of what arrives
    on the wire. *)
Definition received (body : jsval) : ChatQueryRequest :=
  {| cq_query := prop (on_the_wire body) "query";
     cq_category := prop (on_the_wire body) "category" |}.

(** A click on the send button of the page in state [st], with [value] in
    the text area: [ChatWindow] disables the input without a current chat,
    [ChatInput] calls [onSend], which is [handleSendMessage]. *)
Definition click_send (st : AppState) (value : string) (newId : string)
    (fresh : nat → string) (id1 id2 : string) : option Sending :=
  match sent (handleClick (input_disabled (currentChat st)) value) with
  | Some content =>
      Some (handleSendMessage (currentChatId st) content newId fresh id1 id2)
  | None => None
  end.

(** The events of the page between the posting of a query and its
    answer. *)
Inductive PageEvent : Type :=
| NewChat (id : string)
| SelectChat (id : string).

Definition page_step (st : AppState) (ev : PageEvent) : AppState :=
  match ev with
  | NewChat id => handleNewChat id st
  | SelectChat id => handleSelectChat id st
  end.

(** The messages of the chat with identifier [id], when there is one. *)
Definition messages_of (id : string) (l : list ChatMeta) : option (list Message) :=
  chat_messages <$> find (λ c, bool_decide (chat_id c = id)) l.

End Web.

(** A page with two chats, the first of them current, and a supply of
    identifiers. *)
Module SamplePage.
Import Web.

Definition greeting : Message := userMessage "m-0" "hello".

Definition page : AppState :=
  {| chats := [ {| chat_id := "chat-1"; chat_title := "New Chat";
                   chat_messages := [greeting] |};
                {| chat_id := "chat-2"; chat_title := "New Chat";
                   chat_messages := [] |} ];
     currentChatId := Some "chat-1" |}.

Definition fresh (n : nat) : string := "m-" +:+ dec (S n).

End SamplePage.

(** ** Vocabulary of the further properties *)

(** *** Chunker *)

(** The white space of the text is single spaces: every white-space
    character is a SPACE, and none follows another. *)
Fixpoint single_spaced (text : string) : Prop :=
  match text with
  | "" => True
  | String c rest =>
      (is_space c = true →
       c = " "%char
       ∧ match rest with
         | String d _ => is_space d = false
         | "" => True
         end)
      ∧ single_spaced rest
  end.

(** *** Programs *)

(** Whatever the program is answered, it throws nothing, and what it
    returns satisfies [P]. *)
Fixpoint replies {A} (P : A → Prop) (p : Prog A) : Prop :=
  match p with
  | Ret a => P a
  | Throw _ => False
  | Http _ k => ∀ r, replies P (k r)
  | Uuid k => ∀ s, replies P (k s)
  end.

(** Whatever the program is answered, what it returns satisfies [P]; it
    may throw. *)
Fixpoint returns_only {A} (P : A → Prop) (p : Prog A) : Prop :=
  match p with
  | Ret a => P a
  | Throw _ => True
  | Http _ k => ∀ r, returns_only P (k r)
  | Uuid k => ∀ s, returns_only P (k s)
  end.

(** The next [n] identifiers that a world draws. *)
Fixpoint draws {W} (env : Env W) (n : nat) (w : W) : list string * W :=
  match n with
  | 0 => ([], w)
  | S n =>
      let '(s, w1) := draw env w in
      let '(ss, w2) := draws env n w1 in
      (s :: ss, w2)
  end.

(** *** Embedding client *)

(** What [embedTexts] returns or throws, read off the reply to its
    request. *)
Definition vectors_for_reply (r : Reply) : result (list jsval) :=
  match r with
  | Rejected detail => Err (AxiosError detail)
  | Resolved data =>
      match prop data "embeddings" with
      | JArr vectors => Ok vectors
      | _ => Err (Error "Invalid response from embeddings service")
      end
  end.

(** *** Ingestion route *)

(** The point built for a chunk, given the identifier drawn for it. *)
Definition point_json (documentId : string) (category title : jsval)
    (vectors : list jsval) (chunk : string) (idx : nat) (id : string) : jsval :=
  JObj [("id", JStr id);
        ("payload", JObj [("documentId", JStr documentId);
                          ("category", category);
                          ("text", JStr chunk);
                          ("title", if truthy title then title else JStr "")]);
        ("vector", at_index vectors idx)].

(** The points of the chunks, numbered from [from], with the identifiers
    drawn for them. *)
Fixpoint points_from (documentId : string) (category title : jsval)
    (vectors : list jsval) (from : nat) (chunks ids : list string)
    : list jsval :=
  match chunks, ids with
  | chunk :: chunks, id :: ids =>
      point_json documentId category title vectors chunk from id
      :: points_from documentId category title vectors (S from) chunks ids
  | _, _ => []
  end.

(** The generic failure reply of the ingestion route. *)
Definition ingest_failure : Response :=
  send 500 (JObj [("error", JStr "Failed to ingest document")]).

(** A reply of a route: status 200, or 400, or 500 with the fixed failure
    body of the route. *)
Definition route_reply (failure : jsval) (resp : Response) : Prop :=
  status resp = 200 ∨ status resp = 400
  ∨ (status resp = 500 ∧ payload resp = failure).

(** A request to a generation backend. *)
Definition generation (c : Call) : Prop :=
  site c = GenerateOllama ∨ site c = GenerateOpenAI.

(** *** Query route *)

(** The order in which the query route may address its backends: the
    existence check, the creation, the embedding, the search, the rerank
    and one generation request, each at most once, and none without those
    before it, of which only the creation and the rerank may be left
    out. *)
Definition after_rerank (l : list Site) : bool :=
  match l with
  | [] | [GenerateOllama] | [GenerateOpenAI] => true
  | _ => false
  end.

Definition after_search (l : list Site) : bool :=
  match l with
  | Rerank :: l' => after_rerank l'
  | _ => after_rerank l
  end.

Definition after_provision (l : list Site) : bool :=
  match l with
  | [] | [Embed] => true
  | Embed :: Search :: l' => after_search l'
  | _ => false
  end.

Definition query_protocol (l : list Site) : bool :=
  match l with
  | [] => true
  | CollectionCheck :: CollectionCreate :: l' => after_provision l'
  | CollectionCheck :: l' => after_provision l'
  | _ => false
  end.

(** *** Request bodies *)

(** [v == null]: the value is [null] or [undefined]. *)
Definition nullish (v : jsval) : bool :=
  match v with
  | JUndefined | JNull => true
  | _ => false
  end.

(** *** Ingestion pipeline *)

(** The order in which the ingestion route may address its backends: the
    existence check, the creation, the embedding and the upsert, each at
    most once, and none without those before it, of which only the
    creation may be left out. *)
Definition after_embedding (l : list Site) : bool :=
  match l with
  | [] | [Upsert] => true
  | _ => false
  end.

Definition after_ingest_provision (l : list Site) : bool :=
  match l with
  | [] => true
  | Embed :: l' => after_embedding l'
  | _ => false
  end.

Definition ingest_protocol (l : list Site) : bool :=
  match l with
  | [] => true
  | CollectionCheck :: CollectionCreate :: l' => after_ingest_provision l'
  | CollectionCheck :: l' => after_ingest_provision l'
  | _ => false
  end.

(** *** Strings *)

(** The characters of the string neither begin nor end with white
    space. *)
Definition trimmed (s : string) : Prop :=
  match list_ascii_of_string s with
  | c :: _ => is_space c = false
  | [] => True
  end
  ∧ match rev (list_ascii_of_string s) with
    | c :: _ => is_space c = false
    | [] => True
    end.

(** * Properties *)

(** ** The monad and its runs *)

Section Runs.
Context {W : Type} (env : Env W).

Lemma after_nil {A} (r : Run W A) : after [] r = r.
Proof. by destruct r. Qed.

Lemma logged_after {A} ev t (r : Run W A) :
  logged ev (after t r) = after (ev :: t) r.
Proof. done. Qed.

Lemma run_bind {A B} (p : Prog A) (f : A → Prog B) (w : W) :
  run env (bind p f) w =
  match outcome (run env p w) with
  | Ok a => after (trace (run env p w)) (run env (f a) (final (run env p w)))
  | Err e => failed (run env p w) e
  end.
Proof.
  revert w. induction p as [a|e|c k IH|k IH]; intros w; simpl.
  - by rewrite after_nil.
  - done.
  - destruct (answer env c w) as [r w']. rewrite IH. simpl.
    by destruct (outcome (run env (k r) w')).
  - destruct (draw env w) as [s w']. rewrite IH. simpl.
    by destruct (outcome (run env (k s) w')).
Qed.

Lemma run_catch {A} (p : Prog A) (h : exn → Prog A) (w : W) :
  run env (catch p h) w =
  match outcome (run env p w) with
  | Ok a => run env p w
  | Err e => after (trace (run env p w)) (run env (h e) (final (run env p w)))
  end.
Proof.
  revert w. induction p as [a|e|c k IH|k IH]; intros w; simpl.
  - done.
  - by rewrite after_nil.
  - destruct (answer env c w) as [r w']. rewrite IH. simpl.
    by destruct (outcome (run env (k r) w')).
  - destruct (draw env w) as [s w']. rewrite IH. simpl.
    by destruct (outcome (run env (k s) w')).
Qed.

Lemma run_lift {A} (r : result A) (w : W) :
  run env (lift r) w = {| outcome := r; trace := []; final := w |}.
Proof. by destruct r. Qed.

Lemma run_request (c : Call) (w : W) :
  run env (request c) w =
  {| outcome := match (answer env c w).1 with
                | Resolved data => Ok data
                | Rejected detail => Err (AxiosError detail)
                end;
     trace := [EvHttp c (answer env c w).1];
     final := (answer env c w).2 |}.
Proof.
  unfold request. simpl. destruct (answer env c w) as [[data|detail] w']; done.
Qed.

(** A rethrowing handler changes nothing. *)
Lemma run_catch_rethrow {A} (p : Prog A) (w : W) :
  run env (catch p (λ e, Throw e)) w = run env p w.
Proof.
  rewrite run_catch. destruct (run env p w) as [[a|e] t w']; simpl; [done|].
  unfold after. simpl. by rewrite app_nil_r.
Qed.

Lemma only_calls_run {A} (P : Call → Prop) (p : Prog A) (w : W) :
  only_calls P p → Forall P (calls (trace (run env p w))).
Proof.
  revert w. induction p as [a|e|c k IH|k IH]; intros w; simpl.
  - constructor.
  - constructor.
  - intros [Hc Hk]. destruct (answer env c w) as [r w']. simpl.
    constructor; [done|]. by apply IH.
  - intros Hk. destruct (draw env w) as [s w']. simpl. by apply IH.
Qed.
End Runs.

Lemma only_calls_bind {A B} P (p : Prog A) (f : A → Prog B) :
  only_calls P p → (∀ a, only_calls P (f a)) → only_calls P (bind p f).
Proof.
  intros Hp Hf. induction p as [a|e|c k IH|k IH]; simpl in *; [done|done| |].
  - destruct Hp as [Hc Hk]. split; [done|]. intros r. by apply IH.
  - intros s. by apply IH.
Qed.

Lemma only_calls_catch {A} P (p : Prog A) (h : exn → Prog A) :
  only_calls P p → (∀ e, only_calls P (h e)) → only_calls P (catch p h).
Proof.
  intros Hp Hh. induction p as [a|e|c k IH|k IH]; simpl in *; [done|done| |].
  - destruct Hp as [Hc Hk]. split; [done|]. intros r. by apply IH.
  - intros s. by apply IH.
Qed.

Lemma only_calls_lift {A} P (r : result A) : only_calls P (lift r).
Proof. by destruct r. Qed.

Lemma only_calls_request P (c : Call) : P c → only_calls P (request c).
Proof. intros Hc. split; [done|]. by intros [data|detail]. Qed.

Lemma only_calls_weaken {A} (P Q : Call → Prop) (p : Prog A) :
  (∀ c, P c → Q c) → only_calls P p → only_calls Q p.
Proof.
  intros HPQ. induction p as [a|e|c k IH|k IH]; simpl; [done|done| |].
  - intros [Hc Hk]. split; [by apply HPQ|]. intros r. by apply IH.
  - intros Hk s. by apply IH.
Qed.

(** ** Footprints of the service functions *)

Section Footprints.
Variable rt : Runtime.
Variable cfg : Config.

Lemma ensureCollection_calls :
  only_calls (λ c, c = check_call cfg ∨ c = create_call cfg)
    (ensureCollection cfg).
Proof.
  unfold ensureCollection. apply only_calls_catch.
  - apply only_calls_bind; [apply only_calls_request; by left|done].
  - intros _. apply only_calls_catch; [|done].
    apply only_calls_bind; [apply only_calls_request; by right|done].
Qed.

Lemma embedTexts_calls texts :
  only_calls (λ c, c = embed_call cfg texts) (embedTexts cfg texts).
Proof.
  unfold embedTexts. apply only_calls_catch; [|done].
  apply only_calls_bind; [by apply only_calls_request|].
  intros data. destruct (truthy data && _); [|done].
  by destruct (prop data "embeddings").
Qed.

Lemma rerankContexts_calls query contexts :
  only_calls (λ c, c = rerank_call cfg query contexts)
    (rerankContexts rt cfg query contexts).
Proof.
  unfold rerankContexts. destruct (negb _); [done|].
  apply only_calls_catch; [|done].
  apply only_calls_bind; [by apply only_calls_request|].
  intros data. destruct (truthy data && _); [|done].
  destruct (prop data "scores"); try done. apply only_calls_lift.
Qed.

Lemma generateAnswer_calls prompt :
  only_calls (λ c, c = generate_call cfg prompt) (generateAnswer rt cfg prompt).
Proof.
  unfold generateAnswer, generate_call.
  destruct (String.eqb (LLM_PROVIDER cfg) "ollama").
  - apply only_calls_catch; [|done].
    apply only_calls_bind; [by apply only_calls_request|].
    intros data. apply only_calls_lift.
  - apply only_calls_catch; [|done].
    apply only_calls_bind; [by apply only_calls_request|].
    intros data. apply only_calls_lift.
Qed.

Lemma generate_call_site prompt :
  site (generate_call cfg prompt) = GenerateOllama
  ∨ site (generate_call cfg prompt) = GenerateOpenAI.
Proof.
  unfold generate_call. destruct (String.eqb _ _); [by left|by right].
Qed.

Lemma answerFrom_calls query hits contexts order :
  only_calls (λ c, site c = GenerateOllama ∨ site c = GenerateOpenAI)
    (answerFrom rt cfg query hits contexts order).
Proof.
  unfold answerFrom.
  apply only_calls_bind; [apply only_calls_lift|]. intros cits.
  apply only_calls_bind; [apply only_calls_lift|]. intros ctxs.
  apply only_calls_bind; [apply only_calls_lift|]. intros prompt.
  apply only_calls_bind.
  - eapply only_calls_weaken; [|apply generateAnswer_calls].
    intros c ->. apply generate_call_site.
  - intros raw. apply only_calls_bind; [apply only_calls_lift|done].
Qed.

Lemma afterSearch_calls query data :
  only_calls (λ c, site c = Rerank ∨ site c = GenerateOllama
                   ∨ site c = GenerateOpenAI)
    (afterSearch rt cfg query data).
Proof.
  unfold afterSearch.
  apply only_calls_bind; [apply only_calls_lift|]. intros len.
  destruct (is_zero len); [done|].
  destruct (hits_of data); try done.
  apply only_calls_bind; [apply only_calls_lift|]. intros contexts.
  apply only_calls_bind.
  - eapply only_calls_weaken; [|apply rerankContexts_calls].
    intros c ->. by left.
  - intros order. eapply only_calls_weaken; [|apply answerFrom_calls].
    intros c Hc. by right.
Qed.

(** The only search request of the query route carries the filter built
    from the category of the request. *)
Lemma chatQuery_search_filter req :
  only_calls (λ c, site c = Search →
                   prop (body c) "filter" = searchFilter (cq_category req))
    (chatQuery rt cfg req).
Proof.
  unfold chatQuery. destruct (negb _); [done|].
  apply only_calls_catch; [|done].
  apply only_calls_bind.
  { eapply only_calls_weaken; [|apply ensureCollection_calls].
    by intros c [-> | ->]. }
  intros _. apply only_calls_bind.
  { eapply only_calls_weaken; [|apply embedTexts_calls]. by intros c ->. }
  intros vectors. apply only_calls_bind.
  { by apply only_calls_request. }
  intros data. eapply only_calls_weaken; [|apply afterSearch_calls].
  intros c Hc Hs. simpl in Hc. destruct Hc as [H|[H|H]]; congruence.
Qed.
End Footprints.

(** ** Validation *)

(** A request whose destructured query text is empty or missing, and an
    ingestion request whose destructured text or category is empty or
    missing, are answered with status 400 at once: the run makes no call at
    all (no provisioning, embedding, search, rerank, generation or upsert
    request, and no identifier is drawn) and leaves the world as it was. *)
Lemma invalid_fields_make_no_call {W} (env : Env W) rt cfg
    (query : ChatQueryRequest) (ingest : IngestTextRequest) (w : W) :
  truthy (cq_query query) = false →
  truthy (it_text ingest) = false ∨ truthy (it_category ingest) = false →
  run env (chatQuery rt cfg query) w =
    {| outcome := Ok (send 400 (JObj [("error", JStr "query is required")]));
       trace := []; final := w |}
  ∧ run env (ingestText cfg ingest) w =
    {| outcome := Ok (send 400
                        (JObj [("error", JStr "text and category are required")]));
       trace := []; final := w |}.
Proof.
  intros Hq Hi. split.
  - unfold chatQuery. by rewrite Hq.
  - unfold ingestText.
    destruct Hi as [-> | ->]; [done|]. by rewrite orb_true_r.
Qed.

(** The fields of a body that is neither [null] nor [undefined] are its
    properties. *)
Lemma query_fields_of_body body :
  nullish body = false →
  query_fields body = Ok {| cq_query := prop body "query";
                            cq_category := prop body "category" |}.
Proof. by destruct body. Qed.

Lemma ingest_fields_of_body body :
  nullish body = false →
  ingest_fields body = Ok {| it_text := prop body "text";
                             it_category := prop body "category";
                             it_title := prop body "title" |}.
Proof. by destruct body. Qed.

Lemma fields_of_nullish_body body :
  nullish body = true →
  query_fields body = Err TypeError ∧ ingest_fields body = Err TypeError.
Proof. by destruct body. Qed.

(** The routes on the body: the destructuring, then the handler. *)
Lemma run_postChatQuery {W} (env : Env W) rt cfg body (w : W) :
  run env (postChatQuery rt cfg body) w =
  match query_fields body with
  | Ok req => run env (chatQuery rt cfg req) w
  | Err e => {| outcome := Err e; trace := []; final := w |}
  end.
Proof. unfold postChatQuery. by destruct (query_fields body). Qed.

Lemma run_postIngestText {W} (env : Env W) cfg body (w : W) :
  run env (postIngestText cfg body) w =
  match ingest_fields body with
  | Ok req => run env (ingestText cfg req) w
  | Err e => {| outcome := Err e; trace := []; final := w |}
  end.
Proof. unfold postIngestText. by destruct (ingest_fields body). Qed.

(** C8, at the failing inputs. A request whose body is [null], or which
    has no body, has no query text, and the query route does not answer it
    with a 4xx reply: the destructuring of the body, which stands before
    the validation and before the [try], throws a [TypeError] that leaves
    the handler; the ingestion route does the same. No call is made. For
    every other body the claim holds: an empty or missing query, or an
    empty or missing text or category, is answered 400 at once, without
    any call. *)
Theorem null_body_escapes_validation {W} (env : Env W) rt cfg (w : W) :
  (run env (postChatQuery rt cfg JNull) w
   = {| outcome := Err TypeError; trace := []; final := w |}
   ∧ run env (postChatQuery rt cfg JUndefined) w
     = {| outcome := Err TypeError; trace := []; final := w |}
   ∧ run env (postIngestText cfg JNull) w
     = {| outcome := Err TypeError; trace := []; final := w |}
   ∧ run env (postIngestText cfg JUndefined) w
     = {| outcome := Err TypeError; trace := []; final := w |})
  ∧ (∀ body,
       nullish body = false →
       truthy (prop body "query") = false →
       run env (postChatQuery rt cfg body) w
       = {| outcome := Ok (send 400 (JObj [("error", JStr "query is required")]));
            trace := []; final := w |})
  ∧ (∀ body,
       nullish body = false →
       truthy (prop body "text") = false
       ∨ truthy (prop body "category") = false →
       run env (postIngestText cfg body) w
       = {| outcome := Ok (send 400
                             (JObj [("error",
                                     JStr "text and category are required")]));
            trace := []; final := w |}).
Proof.
  split; [by repeat split|]. split.
  - intros body Hbody Hq.
    rewrite run_postChatQuery, (query_fields_of_body body Hbody).
    apply (invalid_fields_make_no_call env rt cfg
             {| cq_query := prop body "query";
                cq_category := prop body "category" |}
             {| it_text := JUndefined; it_category := JUndefined;
                it_title := JUndefined |} w Hq).
    by left.
  - intros body Hbody Hi.
    rewrite run_postIngestText, (ingest_fields_of_body body Hbody).
    by apply (invalid_fields_make_no_call env rt cfg
                {| cq_query := JUndefined; cq_category := JUndefined |}
                {| it_text := prop body "text";
                   it_category := prop body "category";
                   it_title := prop body "title" |} w).
Qed.

(** ** Category filter *)

(** C10. A chat query whose category is the empty string, or any other
    falsy value, builds no filter: the handler is the very program it is
    for a request without a category, every search request it issues has
    [filter] undefined, and a string category attaches the equality filter
    exactly when it is not empty. *)
Theorem falsy_category_sends_no_filter {W} (env : Env W) rt cfg
    (req : ChatQueryRequest) (w : W) :
  truthy (cq_category req) = false →
  searchFilter (cq_category req) = JUndefined
  ∧ chatQuery rt cfg req =
    chatQuery rt cfg {| cq_query := cq_query req; cq_category := JUndefined |}
  ∧ Forall (λ c, site c = Search → prop (body c) "filter" = JUndefined)
      (calls (trace (run env (chatQuery rt cfg req) w)))
  ∧ ∀ s, searchFilter (JStr s) =
         if bool_decide (s = "") then JUndefined
         else JObj [("must", JArr [JObj [("key", JStr "category");
                                         ("match", JObj [("value", JStr s)])]])].
Proof.
  intros Hc.
  assert (Hf : searchFilter (cq_category req) = JUndefined)
    by (unfold searchFilter; by rewrite Hc).
  repeat split.
  - done.
  - unfold chatQuery. simpl. by rewrite Hf.
  - rewrite <-Hf. apply only_calls_run, chatQuery_search_filter.
  - intros s. unfold searchFilter, truthy.
    destruct (decide (s = "")) as [->|Hs]; [done|].
    by rewrite bool_decide_true, bool_decide_false.
Qed.


(** On the wire the search body of such a query has no [filter] key. *)
Lemma falsy_category_filter_absent cfg queryVector category :
  truthy category = false →
  has_key (on_the_wire (body (search_call cfg queryVector
                                (searchFilter category)))) "filter" = false.
Proof.
  intros Hc. unfold searchFilter. rewrite Hc. by destruct queryVector.
Qed.

Lemma truthy_category_filter_present cfg queryVector category :
  truthy category = true →
  has_key (on_the_wire (body (search_call cfg queryVector
                                (searchFilter category)))) "filter" = true.
Proof.
  intros Hc. unfold searchFilter. rewrite Hc. by destruct queryVector.
Qed.

Lemma falsy_category_sends_no_filter_witness :
  let req := {| cq_query := JStr "what is the leave policy?";
                cq_category := JStr "" |} in
  chatQuery Sample.rt Sample.defaults req =
  chatQuery Sample.rt Sample.defaults
    {| cq_query := cq_query req; cq_category := JUndefined |}.
Proof.
  intros req.
  apply (falsy_category_sends_no_filter Sample.scripted Sample.rt
           Sample.defaults req []).
  reflexivity.
Defined.

(** ** Collection provisioning *)

Section Provisioning.
Context {W : Type} (env : Env W).
Variable cfg : Config.

(** The run of [ensureCollection], by the replies to its requests. *)
Lemma run_ensureCollection (w : W) :
  run env (ensureCollection cfg) w =
  match answer env (check_call cfg) w with
  | (Resolved data, w1) =>
      {| outcome := Ok tt;
         trace := [EvHttp (check_call cfg) (Resolved data)]; final := w1 |}
  | (Rejected absent, w1) =>
      match answer env (create_call cfg) w1 with
      | (Resolved data, w2) =>
          {| outcome := Ok tt;
             trace := [EvHttp (check_call cfg) (Rejected absent);
                       EvHttp (create_call cfg) (Resolved data)];
             final := w2 |}
      | (Rejected detail, w2) =>
          {| outcome := Err (AxiosError detail);
             trace := [EvHttp (check_call cfg) (Rejected absent);
                       EvHttp (create_call cfg) (Rejected detail)];
             final := w2 |}
      end
  end.
Proof.
  unfold ensureCollection. simpl.
  destruct (answer env (check_call cfg) w) as [[data|absent] w1]; simpl; [done|].
  destruct (answer env (create_call cfg) w1) as [[data|detail] w2]; done.
Qed.

(** After a call that returned, the collection is visible. *)
Lemma ensureCollection_visible (w : W) :
  observes_existence env cfg →
  outcome (run env (ensureCollection cfg) w) = Ok tt →
  visible env cfg (final (run env (ensureCollection cfg) w)).
Proof.
  intros Hobs. rewrite run_ensureCollection.
  destruct (answer env (check_call cfg) w) as [[data|absent] w1] eqn:Hcheck; simpl.
  - intros _. eapply Hobs; [by left|done].
  - destruct (answer env (create_call cfg) w1) as [[data|detail] w2] eqn:Hcreate;
      simpl; [|done].
    intros _. eapply Hobs; [by right|done].
Qed.

(** Against a visible collection the call is one successful existence
    check. *)
Lemma ensureCollection_when_visible (w : W) :
  visible env cfg w →
  ∃ data w',
    run env (ensureCollection cfg) w =
    {| outcome := Ok tt;
       trace := [EvHttp (check_call cfg) (Resolved data)]; final := w' |}.
Proof.
  intros (data & w' & Hcheck). exists data, w'.
  by rewrite run_ensureCollection, Hcheck.
Qed.

(** C6. Against a vector store that shows what was provisioned, calling
    [ensureCollection] twice in sequence issues at most one creation
    request, and the second call is a single successful existence check: no
    write. Against any world, a rejected existence check leads to the
    creation request rather than to an error, and [ensureCollection] throws
    only the rejection of its creation request. *)
Theorem ensureCollection_idempotent (w : W) :
  observes_existence env cfg →
  let first := run env (ensureCollection cfg) w in
  let twice :=
    run env (await _ <- ensureCollection cfg in ensureCollection cfg) w in
  (creations (trace twice) ≤ 1)%nat
  ∧ (outcome first = Ok tt →
     ∃ data w',
       run env (ensureCollection cfg) (final first) =
       {| outcome := Ok tt;
          trace := [EvHttp (check_call cfg) (Resolved data)]; final := w' |}
       ∧ twice = after (trace first)
                   (run env (ensureCollection cfg) (final first))
       ∧ writes (trace (run env (ensureCollection cfg) (final first))) = [])
  ∧ (∀ absent w1,
       answer env (check_call cfg) w = (Rejected absent, w1) →
       ∃ r, trace first = [EvHttp (check_call cfg) (Rejected absent);
                           EvHttp (create_call cfg) r]
            ∧ outcome first = match r with
                              | Resolved _ => Ok tt
                              | Rejected detail => Err (AxiosError detail)
                              end)
  ∧ (∀ e, outcome first = Err e →
       ∃ detail, e = AxiosError detail
                 ∧ EvHttp (create_call cfg) (Rejected detail) ∈ trace first).
Proof.
  intros Hobs first twice.
  assert (Hsecond : outcome first = Ok tt →
            ∃ data w', run env (ensureCollection cfg) (final first) =
              {| outcome := Ok tt;
                 trace := [EvHttp (check_call cfg) (Resolved data)];
                 final := w' |}).
  { intros Hok. apply ensureCollection_when_visible.
    by apply ensureCollection_visible. }
  assert (Htwice : twice =
            match outcome first with
            | Ok _ => after (trace first)
                        (run env (ensureCollection cfg) (final first))
            | Err e => failed first e
            end) by apply run_bind.
  split; [|split; [|split]].
  - rewrite Htwice. subst first.
    revert Hsecond. rewrite run_ensureCollection.
    destruct (answer env (check_call cfg) w) as [[data|absent] w1]; simpl.
    + intros Hsecond. destruct Hsecond as (d & w' & ->); [done|].
      unfold creations. simpl. lia.
    + destruct (answer env (create_call cfg) w1) as [[data|detail] w2]; simpl.
      * intros Hsecond. destruct Hsecond as (d & w' & ->); [done|].
        unfold creations. simpl. lia.
      * intros _. unfold creations. simpl. lia.
  - intros Hok. destruct (Hsecond Hok) as (data & w' & Hrun).
    exists data, w'. split; [done|]. split.
    + by rewrite Htwice, Hok.
    + by rewrite Hrun.
  - intros absent w1 Hcheck. subst first. rewrite run_ensureCollection, Hcheck.
    destruct (answer env (create_call cfg) w1) as [[data|detail] w2];
      eexists; split; reflexivity.
  - intros e. subst first. rewrite run_ensureCollection.
    destruct (answer env (check_call cfg) w) as [[data|absent] w1]; simpl; [done|].
    destruct (answer env (create_call cfg) w1) as [[data|detail] w2]; simpl; [done|].
    intros [= <-]. exists detail. split; [done|]. apply list_elem_of_further, list_elem_of_here.
Qed.
End Provisioning.

Lemma store_observes_existence cfg : observes_existence Sample.store cfg.
Proof.
  intros c w data w' [-> | ->]; simpl.
  - destruct w; intros [= <- <-]. by exists (JObj [("status", JStr "ok")]), true.
  - destruct w; intros [= <- <-]. by exists (JObj [("status", JStr "ok")]), true.
Qed.

(** The premise on the store is needed: where the existence check keeps
    failing, each call issues its own creation request. *)
Example ensureCollection_unobservable :
  creations
    (trace (run Sample.unobservable_store
              (await _ <- ensureCollection Sample.defaults in
               ensureCollection Sample.defaults) tt)) = 2.
Proof. reflexivity. Qed.

Lemma ensureCollection_idempotent_witness :
  (creations
     (trace (run Sample.store
               (await _ <- ensureCollection Sample.defaults in
                ensureCollection Sample.defaults) false)) ≤ 1)%nat.
Proof.
  apply (ensureCollection_idempotent Sample.store Sample.defaults false).
  apply store_observes_existence.
Defined.

(** ** Reranker *)

Lemma mapi_from_length {A B} (f : A → nat → B) i xs :
  length (mapi_from i f xs) = length xs.
Proof. revert i. induction xs as [|x r IH]; intros i; simpl; [done|]. by rewrite IH. Qed.

Lemma identity_order_seq contexts :
  identity_order contexts = identity_permutation (length contexts).
Proof.
  unfold identity_order, identity_permutation, mapi. generalize 0.
  induction contexts as [|x r IH]; intros i; simpl; [done|]. by rewrite IH.
Qed.

Section RerankRuns.
Variable rt : Runtime.
Variable cfg : Config.

(** Without a backend the function is the identity order and calls
    nothing. *)
Lemma rerankContexts_unconfigured query contexts :
  RERANK_BASE_URL cfg = "" →
  rerankContexts rt cfg query contexts =
  Ret (identity_permutation (length contexts)).
Proof.
  intros Hurl. unfold rerankContexts. rewrite Hurl. simpl.
  by rewrite identity_order_seq.
Qed.

(** With a backend the function makes its one request and always returns
    an order. *)
Lemma run_rerankContexts {W} (env : Env W) query contexts (w : W) :
  RERANK_BASE_URL cfg ≠ "" →
  run env (rerankContexts rt cfg query contexts) w =
  let call := rerank_call cfg query contexts in
  {| outcome := Ok (order_for_reply rt contexts (answer env call w).1);
     trace := [EvHttp call (answer env call w).1];
     final := (answer env call w).2 |}.
Proof.
  intros Hurl. unfold rerankContexts. simpl.
  rewrite bool_decide_true by done. simpl.
  destruct (answer env (rerank_call cfg query contexts) w) as [[data|detail] w'];
    simpl; [|done].
  destruct (truthy data && isArray (prop data "scores")); simpl; [|done].
  destruct (prop data "scores"); simpl; try done.
  by destruct (score_order rt items).
Qed.

Lemma rerankContexts_returns {W} (env : Env W) query contexts (w : W) :
  succeeds (outcome (run env (rerankContexts rt cfg query contexts) w)).
Proof.
  destruct (decide (RERANK_BASE_URL cfg = "")) as [Hurl|Hurl].
  - rewrite rerankContexts_unconfigured by done. by eexists.
  - rewrite run_rerankContexts by done. by eexists.
Qed.

(** C4. With a rerank backend configured, when the request is rejected
    (network error, timeout, error status) or the response has no array
    under [scores], [rerankContexts] returns the identity permutation over
    the candidates; and in every world, whatever the backend does,
    [rerankContexts] returns an order and throws nothing. *)
Theorem rerank_failure_falls_back_to_identity {W} (env : Env W)
    query contexts (w : W) :
  RERANK_BASE_URL cfg ≠ "" →
  no_scores (answer env (rerank_call cfg query contexts) w).1 →
  outcome (run env (rerankContexts rt cfg query contexts) w)
  = Ok (identity_permutation (length contexts))
  ∧ ∀ (W' : Type) (env' : Env W') (w' : W') query' contexts',
      succeeds (outcome (run env' (rerankContexts rt cfg query' contexts') w')).
Proof.
  intros Hurl Hno. split.
  - rewrite run_rerankContexts by done. simpl.
    destruct (answer env (rerank_call cfg query contexts) w) as [[data|detail] w'];
      simpl in *.
    + rewrite Hno, andb_false_r. by rewrite identity_order_seq.
    + by rewrite identity_order_seq.
  - intros W' env' w' query' contexts'. apply rerankContexts_returns.
Qed.
End RerankRuns.

(** *** The sort *)

Section SortProps.
Context {A : Type}.
Variable cmp : A → A → result (option comparison).

Lemma insert_perm x l l' : insert cmp x l = Ok l' → l' ≡ₚ x :: l.
Proof.
  revert l'. induction l as [|y r IH]; intros l'; simpl.
  - by intros [= <-].
  - destruct (cmp x y) as [c|e]; simpl; [|done].
    destruct c as [[| |]|]; try by intros [= <-].
    destruct (insert cmp x r) as [r'|e]; simpl; [|done].
    intros [= <-]. rewrite (IH r') by done. apply perm_swap.
Qed.

Lemma sortR_perm l l' : sortR cmp l = Ok l' → l' ≡ₚ l.
Proof.
  revert l'. induction l as [|x r IH]; intros l'; simpl.
  - by intros [= <-].
  - destruct (sortR cmp r) as [r'|e]; simpl; [|done].
    intros Hins. rewrite (insert_perm _ _ _ Hins). by rewrite (IH r').
Qed.

Variable R : A → A → Prop.
Hypothesis R_trans : Transitive R.

Lemma insert_sorted x l :
  StronglySorted R l → Forall (settles cmp R x) l →
  ∃ l', insert cmp x l = Ok l' ∧ StronglySorted R l'.
Proof.
  induction l as [|y r IH]; intros Hsorted Hx; simpl.
  - eexists. split; [done|]. repeat constructor.
  - apply StronglySorted_inv in Hsorted as [Hr Hy].
    apply Forall_cons in Hx as [(c & -> & Hc) Hxr]. simpl.
    assert (Hkeep : R x y → ∃ l', Ok (x :: y :: r) = Ok l' ∧ StronglySorted R l').
    { intros Hxy. eexists. split; [done|].
      constructor; [by constructor|]. constructor; [done|].
      eapply Forall_impl; [exact Hy|]. intros z Hz. by etrans. }
    destruct c as [[| |]|]; try by apply Hkeep.
    destruct (IH Hr Hxr) as (r' & Hins & Hr'). rewrite Hins. simpl.
    eexists. split; [done|]. constructor; [done|].
    rewrite (insert_perm _ _ _ Hins). by constructor.
Qed.

Lemma sortR_sorted l :
  ForallOrdPairs (settles cmp R) l →
  ∃ l', sortR cmp l = Ok l' ∧ l' ≡ₚ l ∧ StronglySorted R l'.
Proof.
  induction 1 as [|x r Hx Hr (r' & Hsort & Hperm & Hsorted)]; simpl.
  - eexists. split; [done|]. split; [done|]. constructor.
  - rewrite Hsort. simpl.
    destruct (insert_sorted x r' Hsorted) as (l' & Hins & Hl').
    { by rewrite Hperm. }
    exists l'. split; [done|]. split; [|done].
    by rewrite (insert_perm _ _ _ Hins), Hperm.
Qed.
End SortProps.

(** A comparison function that never throws on the elements of a list
    sorts it into a permutation. *)
Lemma sortR_returns {A} (cmp : A → A → result (option comparison)) l :
  (∀ x y, x ∈ l → y ∈ l → succeeds (cmp x y)) →
  ∃ l', sortR cmp l = Ok l' ∧ l' ≡ₚ l.
Proof.
  intros Hcmp.
  destruct (sortR_sorted cmp (λ _ _, True)) with (l := l) as (l' & Hl' & Hp & _).
  - by intros ???.
  - induction l as [|x r IH]; constructor.
    + apply Forall_forall. intros y Hy.
      destruct (Hcmp x y) as [c Hc]; [by left|by right|].
      exists c. split; [done|]. by destruct c as [[| |]|].
    + apply IH. intros y z Hy Hz. apply Hcmp; by right.
  - by exists l'.
Qed.

(** *** The order computed from numeric scores *)

Lemma mapi_from_pair_snd {B} i (xs : list B) :
  map snd (mapi_from i (λ score idx, (score, idx)) xs) = seq i (length xs).
Proof.
  revert i. induction xs as [|x r IH]; intros i; simpl; [done|]. by rewrite IH.
Qed.

Lemma mapi_from_pair_fst {B} i (xs : list B) :
  map fst (mapi_from i (λ score idx, (score, idx)) xs) = xs.
Proof.
  revert i. induction xs as [|x r IH]; intros i; simpl; [done|]. by rewrite IH.
Qed.

Lemma before_trans scores : Transitive (before scores).
Proof.
  intros i j k. unfold before.
  destruct (scores !! i) as [x|]; [|done].
  destruct (scores !! j) as [y|]; [|done].
  destruct (scores !! k) as [z|]; [|done].
  intros [Hyx | [-> Hij]] [Hzy | [-> Hjk]].
  - left. by eapply Qclt_trans.
  - by left.
  - by left.
  - right. split; [done|lia].
Qed.

Lemma items_indexed (scores pre suf : list Qc) :
  scores = pre ++ suf →
  Forall (λ it : jsval * nat,
            ∃ q, it.1 = JNum q ∧ scores !! it.2 = Some q ∧ length pre ≤ it.2)
    (mapi_from (length pre) (λ score idx, (score, idx)) (JNum <$> suf)).
Proof.
  revert pre. induction suf as [|q r IH]; intros pre Hs; simpl; [constructor|].
  constructor.
  - exists q. simpl. split; [done|]. split; [|done].
    subst scores. by rewrite list_lookup_middle.
  - specialize (IH (pre ++ [q])). rewrite length_app in IH. simpl in IH.
    rewrite Nat.add_1_r in IH.
    eapply Forall_impl; [apply IH; by rewrite <-app_assoc|].
    intros it (q' & ? & ? & ?). exists q'. split; [done|]. split; [done|lia].
Qed.

Section NumericScores.
Variable rt : Runtime.

Lemma items_ordered (scores pre suf : list Qc) :
  scores = pre ++ suf →
  ForallOrdPairs
    (settles (λ a b : jsval * nat, minus_sign rt (fst b) (fst a))
             (λ a b, before scores a.2 b.2))
    (mapi_from (length pre) (λ score idx, (score, idx)) (JNum <$> suf)).
Proof.
  revert pre. induction suf as [|q r IH]; intros pre Hs; simpl; [constructor|].
  assert (Hhere : scores !! length pre = Some q).
  { subst scores. by rewrite list_lookup_middle. }
  assert (Hnext : S (length pre) = length (pre ++ [q])).
  { rewrite length_app. simpl. lia. }
  constructor.
  - rewrite Hnext.
    eapply Forall_impl; [apply items_indexed; by rewrite <-app_assoc|].
    intros [v j] (q' & Hv & Hj & Hle). simpl in *. subst v.
    rewrite <-Hnext in Hle.
    exists (Some (q' ?= q)%Qc). split; [done|].
    unfold before. simpl. rewrite Hhere, Hj.
    destruct (q' ?= q)%Qc eqn:Hc.
    + apply Qceq_alt in Hc. right. split; [done|lia].
    + apply Qclt_alt in Hc. by left.
    + apply Qcgt_alt in Hc. by left.
  - rewrite Hnext. apply IH. by rewrite <-app_assoc.
Qed.

(** On numeric scores [score_order] returns the permutation of the indices
    in descending order of score, equal scores in their original order. *)
Lemma score_order_numeric (scores : list Qc) :
  ∃ order,
    score_order rt (JNum <$> scores) = Ok order
    ∧ order ≡ₚ identity_permutation (length scores)
    ∧ StronglySorted (before scores) order.
Proof.
  destruct (sortR_sorted
              (λ a b : jsval * nat, minus_sign rt (fst b) (fst a))
              (λ a b, before scores a.2 b.2))
    with (l := mapi (λ score idx, (score, idx)) (JNum <$> scores))
    as (items & Hsort & Hperm & Hsorted).
  - intros a b c. apply before_trans.
  - apply (items_ordered scores [] scores). done.
  - exists (map snd items). split; [|split].
    + unfold score_order. by rewrite Hsort.
    + rewrite Hperm. unfold mapi. rewrite mapi_from_pair_snd.
      by rewrite length_fmap.
    + clear Hsort Hperm. induction Hsorted as [|a l Hl IH Ha]; simpl; constructor.
      * done.
      * by apply Forall_map.
Qed.
End NumericScores.

(** The order is the only one there is: descending score with ties in
    original order leaves no choice. *)
Lemma sorted_order_unique (scores : list Qc) (order order' : list nat) :
  StronglySorted (before scores) order →
  StronglySorted (before scores) order' →
  order ≡ₚ order' → order = order'.
Proof.
  apply StronglySorted_unique_strong. intros i j _ _. unfold before.
  destruct (scores !! i) as [x|]; [|done].
  destruct (scores !! j) as [y|]; [|done].
  intros [Hyx | [-> Hij]] [Hxy | [Heq Hji]].
  - destruct (Qclt_not_le _ _ Hyx). by apply Qclt_le_weak.
  - subst. by destruct (Qclt_not_eq _ _ Hyx).
  - by destruct (Qclt_not_eq _ _ Hxy).
  - lia.
Qed.

(** Equal scores keep their original order. *)
Example score_order_ties rt :
  score_order rt
    [JNum (Q2Qc (5 # 10)); JNum (Q2Qc (9 # 10)); JNum (Q2Qc (5 # 10));
     JNum (Q2Qc (9 # 10))]
  = Ok [1; 3; 0; 2].
Proof. reflexivity. Qed.

Section RerankOrder.
Variable rt : Runtime.

Lemma minus_sign_returns (b a : jsval) :
  succeeds (toNumber rt b) → succeeds (toNumber rt a) →
  succeeds (minus_sign rt b a).
Proof.
  intros [nb Hb] [na Ha]. unfold minus_sign. rewrite Hb, Ha. simpl. by eexists.
Qed.

(** On scores that convert to numbers (or [NaN]) without an exception,
    [score_order] returns a permutation of the indices of the scores. *)
Lemma score_order_returns (scores : list jsval) :
  Forall (λ s, succeeds (toNumber rt s)) scores →
  ∃ order,
    score_order rt scores = Ok order
    ∧ order ≡ₚ identity_permutation (length scores).
Proof.
  intros Hnum.
  destruct (sortR_returns
              (λ a b : jsval * nat, minus_sign rt (fst b) (fst a))
              (mapi (λ score idx, (score, idx)) scores))
    as (items & Hsort & Hperm).
  - assert (Hin : ∀ it : jsval * nat,
              it ∈ mapi (λ score idx, (score, idx)) scores →
              succeeds (toNumber rt it.1)).
    { intros it Hit. rewrite Forall_forall in Hnum. apply Hnum.
      rewrite <-(mapi_from_pair_fst 0 scores). apply list_elem_of_In.
      apply in_map. by apply list_elem_of_In. }
    intros x y Hx Hy. apply minus_sign_returns; by apply Hin.
  - exists (map snd items). split.
    + unfold score_order. by rewrite Hsort.
    + rewrite Hperm. unfold mapi. by rewrite mapi_from_pair_snd.
Qed.

Variable cfg : Config.

Lemma scores_array_truthy data scores :
  prop data "scores" = JArr scores →
  truthy data && isArray (prop data "scores") = true.
Proof. intros Hs. rewrite Hs. by destruct data. Qed.

(** C5. Without a rerank backend, [rerankContexts] returns the identity
    permutation [[0, ..., len(contexts)-1]] and calls nothing. With a
    backend that returns numeric scores, it returns the indices of the
    scores sorted by descending score, equal scores keeping their original
    relative order; scores [[0.2, 0.9, 0.5]] give [[1, 2, 0]]. *)
Theorem rerank_sorts_by_descending_score {W} (env : Env W)
    query contexts (scores : list Qc) data (w : W) :
  RERANK_BASE_URL cfg ≠ "" →
  (answer env (rerank_call cfg query contexts) w).1 = Resolved data →
  prop data "scores" = JArr (JNum <$> scores) →
  (∃ order,
     outcome (run env (rerankContexts rt cfg query contexts) w) = Ok order
     ∧ order ≡ₚ identity_permutation (length scores)
     ∧ StronglySorted (before scores) order)
  ∧ (∀ cfg0 query0 contexts0,
       RERANK_BASE_URL cfg0 = "" →
       rerankContexts rt cfg0 query0 contexts0 =
       Ret (identity_permutation (length contexts0)))
  ∧ score_order rt
      [JNum (Q2Qc (2 # 10)); JNum (Q2Qc (9 # 10)); JNum (Q2Qc (5 # 10))]
    = Ok [1; 2; 0].
Proof.
  intros Hurl Hreply Hscores. split; [|split].
  - destruct (score_order_numeric rt scores) as (order & Horder & Hperm & Hsorted).
    exists order. split; [|done].
    rewrite run_rerankContexts by done. simpl. rewrite Hreply. simpl.
    rewrite scores_array_truthy with (scores := JNum <$> scores) by done.
    by rewrite Hscores, Horder.
  - intros cfg0 query0 contexts0. apply rerankContexts_unconfigured.
  - reflexivity.
Qed.

(** C9. With a rerank backend that returns a scores array, the order
    [rerankContexts] returns is computed from the scores alone: it has as
    many elements as there are scores and is a permutation of their
    indices. Nothing compares that number with the number of candidates, so
    with more scores than candidates the order holds an index that no
    candidate has, and with fewer it misses a candidate. *)
Theorem rerank_order_follows_scores_alone {W} (env : Env W)
    query contexts (scores : list jsval) data (w : W) :
  RERANK_BASE_URL cfg ≠ "" →
  (answer env (rerank_call cfg query contexts) w).1 = Resolved data →
  prop data "scores" = JArr scores →
  Forall (λ s, succeeds (toNumber rt s)) scores →
  ∃ order,
    outcome (run env (rerankContexts rt cfg query contexts) w) = Ok order
    ∧ score_order rt scores = Ok order
    ∧ length order = length scores
    ∧ order ≡ₚ identity_permutation (length scores)
    ∧ (length contexts < length scores → length contexts ∈ order)
    ∧ (length scores < length contexts → length scores ∉ order).
Proof.
  intros Hurl Hreply Hscores Hnum.
  destruct (score_order_returns scores Hnum) as (order & Horder & Hperm).
  exists order. split; [|split; [done|split; [|split; [done|split]]]].
  - rewrite run_rerankContexts by done. simpl. rewrite Hreply. simpl.
    rewrite scores_array_truthy with (scores := scores) by done.
    by rewrite Hscores, Horder.
  - rewrite Hperm. apply length_seq.
  - intros Hlt. rewrite Hperm. apply list_elem_of_In, in_seq. lia.
  - intros Hlt. rewrite Hperm. intros Hin%list_elem_of_In%in_seq. lia.
Qed.
End RerankOrder.

Lemma rerank_failure_falls_back_to_identity_witness :
  outcome (run Sample.scripted
             (rerankContexts Sample.rt Sample.reranked (JStr "q")
                [JStr "A"; JStr "B"; JStr "C"])
             [Resolved (JObj [("detail", JStr "model is loading")])])
  = Ok [0; 1; 2].
Proof.
  apply (rerank_failure_falls_back_to_identity Sample.rt Sample.reranked
           Sample.scripted).
  - discriminate.
  - reflexivity.
Defined.

Lemma rerank_sorts_by_descending_score_witness :
  ∃ order,
    outcome (run Sample.scripted
               (rerankContexts Sample.rt Sample.reranked (JStr "q")
                  [JStr "A"; JStr "B"; JStr "C"])
               [Resolved (Sample.scores [2 # 10; 9 # 10; 5 # 10])])
    = Ok order
    ∧ order ≡ₚ [0; 1; 2]
    ∧ StronglySorted
        (before [Q2Qc (2 # 10); Q2Qc (9 # 10); Q2Qc (5 # 10)]) order.
Proof.
  apply (rerank_sorts_by_descending_score Sample.rt Sample.reranked
           Sample.scripted (JStr "q") [JStr "A"; JStr "B"; JStr "C"]
           [Q2Qc (2 # 10); Q2Qc (9 # 10); Q2Qc (5 # 10)]
           (Sample.scores [2 # 10; 9 # 10; 5 # 10])
           [Resolved (Sample.scores [2 # 10; 9 # 10; 5 # 10])]).
  - discriminate.
  - reflexivity.
  - reflexivity.
Defined.

Lemma rerank_order_follows_scores_alone_witness :
  ∃ order,
    outcome (run Sample.scripted
               (rerankContexts Sample.rt Sample.reranked (JStr "q")
                  [JStr "A"; JStr "B"])
               [Resolved (Sample.scores [1 # 10; 5 # 10; 9 # 10])])
    = Ok order
    ∧ length order = 3
    ∧ 2 ∈ order.
Proof.
  destruct (rerank_order_follows_scores_alone Sample.rt Sample.reranked
              Sample.scripted (JStr "q") [JStr "A"; JStr "B"]
              [JNum (Q2Qc (1 # 10)); JNum (Q2Qc (5 # 10)); JNum (Q2Qc (9 # 10))]
              (Sample.scores [1 # 10; 5 # 10; 9 # 10])
              [Resolved (Sample.scores [1 # 10; 5 # 10; 9 # 10])])
    as (order & Hrun & _ & Hlen & _ & Hmore & _).
  - discriminate.
  - reflexivity.
  - reflexivity.
  - repeat constructor; by eexists.
  - exists order. split; [done|]. split; [done|]. apply Hmore. simpl. lia.
Defined.

(** The premise on the scores is needed: a score that cannot be converted
    to a number makes the comparison throw, and the [catch] of
    [rerankContexts] answers with the identity order over the
    candidates. *)
Example rerank_unconvertible_score :
  outcome (run Sample.scripted
             (rerankContexts Sample.rt Sample.reranked (JStr "q")
                [JStr "A"; JStr "B"; JStr "C"])
             [Resolved (JObj [("scores",
                 JArr [JObj [("toString", JNum (Qc_of_Z 1))];
                       JNum (Q2Qc (5 # 10))])])])
  = Ok [0; 1; 2].
Proof. reflexivity. Qed.

(** Three scores for two candidates: index 2 comes first, and the
    candidates have indices 0 and 1 only. *)
Example rerank_misaligned :
  outcome (run Sample.scripted
             (rerankContexts Sample.rt Sample.reranked (JStr "q")
                [JStr "A"; JStr "B"])
             [Resolved (Sample.scores [1 # 10; 5 # 10; 9 # 10])])
  = Ok [2; 1; 0].
Proof. reflexivity. Qed.

(** ** The query route *)

Ltac finish_run :=
  unfold after, failed; cbn [outcome trace final run app];
  rewrite ?app_nil_r, <-?app_assoc; try reflexivity.

Lemma calls_app t1 t2 : calls (t1 ++ t2) = calls t1 ++ calls t2.
Proof. unfold calls. apply omap_app. Qed.

Lemma event_in_calls c r t : EvHttp c r ∈ t → c ∈ calls t.
Proof.
  intros Hin. unfold calls. apply list_elem_of_omap. by exists (EvHttp c r).
Qed.

Section QueryRoute.
Context {W : Type} (env : Env W).
Variable rt : Runtime.
Variable cfg : Config.

(** The run of the query route on a request that passes validation, stage
    by stage. *)
Lemma run_chatQuery req (w : W) :
  truthy (cq_query req) = true →
  run env (chatQuery rt cfg req) w =
  let r1 := run env (ensureCollection cfg) w in
  match outcome r1 with
  | Err _ => {| outcome := Ok query_failure; trace := trace r1; final := final r1 |}
  | Ok _ =>
      let r2 := run env (embedTexts cfg [cq_query req]) (final r1) in
      match outcome r2 with
      | Err _ =>
          {| outcome := Ok query_failure; trace := trace r1 ++ trace r2;
             final := final r2 |}
      | Ok vectors =>
          let call := search_call cfg (at_index vectors 0)
                        (searchFilter (cq_category req)) in
          let a := answer env call (final r2) in
          match a.1 with
          | Rejected _ =>
              {| outcome := Ok query_failure;
                 trace := trace r1 ++ trace r2 ++ [EvHttp call a.1];
                 final := a.2 |}
          | Resolved data =>
              let r3 := run env (afterSearch rt cfg (cq_query req) data) a.2 in
              {| outcome := Ok (match outcome r3 with
                                | Ok resp => resp
                                | Err _ => query_failure
                                end);
                 trace := trace r1 ++ trace r2 ++ EvHttp call a.1 :: trace r3;
                 final := final r3 |}
          end
      end
  end.
Proof.
  intros Hq. unfold chatQuery. rewrite Hq. cbn [negb]. cbv iota beta zeta.
  rewrite run_catch, (run_bind env (ensureCollection cfg)).
  destruct (run env (ensureCollection cfg) w) as [[[]|e1] t1 w1];
    cbn [outcome trace final failed]; [|by finish_run].
  rewrite (run_bind env (embedTexts cfg _)).
  destruct (run env (embedTexts cfg [cq_query req]) w1) as [[vectors|e2] t2 w2];
    cbn [outcome trace final failed after]; [|by finish_run].
  rewrite (run_bind env (request _)), run_request.
  destruct (answer env _ w2) as [[data|detail] w3];
    cbn [outcome trace final failed after fst snd]; [|by finish_run].
  destruct (run env (afterSearch rt cfg (cq_query req) data) w3)
    as [[resp|e3] t3 w4]; by finish_run.
Qed.

Lemma afterSearch_zero_hits query data :
  zero_hits data = true →
  afterSearch rt cfg query data = Ret (send 200 (chat_response NO_INFORMATION [])).
Proof.
  unfold zero_hits, afterSearch. destruct (js_length (hits_of data)) as [len|e]; [|done].
  simpl. by intros ->.
Qed.

(** C3. When the search of a query comes back with zero hits, the query
    route replies with status 200, the fixed no-information answer and an
    empty citation list, and the run holds no rerank and no generation
    request: a success, not an error. *)
Theorem zero_hits_is_a_success req (w : W) call data :
  EvHttp call (Resolved data) ∈ trace (run env (chatQuery rt cfg req) w) →
  site call = Search →
  zero_hits data = true →
  outcome (run env (chatQuery rt cfg req) w)
  = Ok {| status := 200;
          payload := JObj [("answer", JStr NO_INFORMATION);
                           ("citations", JArr [])] |}
  ∧ Forall (λ c, ¬ rerank_or_generation c)
      (calls (trace (run env (chatQuery rt cfg req) w))).
Proof.
  intros Hin Hsite Hzero.
  destruct (truthy (cq_query req)) eqn:Hq.
  2: { exfalso. revert Hin. unfold chatQuery. rewrite Hq. simpl.
       apply not_elem_of_nil. }
  revert Hin. rewrite run_chatQuery by done. cbv zeta.
  pose proof (only_calls_run env _ _ w (ensureCollection_calls cfg)) as H1.
  destruct (run env (ensureCollection cfg) w) as [[[]|e1] t1 w1];
    cbn [outcome trace final] in *.
  2: { intros Hin%event_in_calls. rewrite Forall_forall in H1.
       apply H1 in Hin as [-> | ->]; done. }
  pose proof (only_calls_run env _ _ w1 (embedTexts_calls cfg [cq_query req])) as H2.
  destruct (run env (embedTexts cfg [cq_query req]) w1) as [[vectors|e2] t2 w2];
    cbn [outcome trace final] in *.
  2: { intros Hin%event_in_calls. rewrite calls_app in Hin.
       rewrite Forall_forall in H1, H2.
       apply elem_of_app in Hin as [Hin|Hin];
         [apply H1 in Hin as [-> | ->]|apply H2 in Hin as ->]; done. }
  assert (Hpre : call ∈ calls t1 ∨ call ∈ calls t2 → False).
  { rewrite Forall_forall in H1, H2.
    intros [Hin|Hin]; [apply H1 in Hin as [-> | ->]|apply H2 in Hin as ->]; done. }
  destruct (answer env _ w2) as [[data'|detail] w3]; cbn [outcome trace final fst snd].
  - intros Hin. rewrite !elem_of_app, elem_of_cons in Hin.
    destruct Hin as [Hin|[Hin|[Heq|Hin]]].
    + exfalso. apply Hpre. left. by eapply event_in_calls.
    + exfalso. apply Hpre. right. by eapply event_in_calls.
    + injection Heq as _ <-.
      rewrite afterSearch_zero_hits by done. cbn [run outcome trace]. split; [done|].
      rewrite !calls_app.
      apply Forall_app. split; [|apply Forall_app; split].
      * eapply Forall_impl; [exact H1|]. intros c [-> | ->] [|[|]]; done.
      * eapply Forall_impl; [exact H2|]. intros c -> [|[|]]; done.
      * apply Forall_singleton. intros [|[|]]; done.
    + exfalso. apply event_in_calls in Hin.
      pose proof (only_calls_run env _ _ w3
                    (afterSearch_calls rt cfg (cq_query req) data')) as H3.
      rewrite Forall_forall in H3. apply H3 in Hin.
      destruct Hin as [H|[H|H]]; congruence.
  - intros Hin. rewrite !elem_of_app, elem_of_cons in Hin.
    destruct Hin as [Hin|[Hin|[Heq|Hin]]].
    + exfalso. apply Hpre. left. by eapply event_in_calls.
    + exfalso. apply Hpre. right. by eapply event_in_calls.
    + done.
    + by apply not_elem_of_nil in Hin.
Qed.
(** With hits, the route reranks their texts and goes on from the order
    returned. *)
Lemma run_afterSearch query data hs contexts (w : W) :
  hits_of data = JArr hs → hs ≠ [] → mapR context_of hs = Ok contexts →
  ∃ order,
    outcome (run env (rerankContexts rt cfg query contexts) w) = Ok order
    ∧ run env (afterSearch rt cfg query data) w
      = after (trace (run env (rerankContexts rt cfg query contexts) w))
          (run env (answerFrom rt cfg query hs contexts order)
             (final (run env (rerankContexts rt cfg query contexts) w))).
Proof.
  intros Hhits Hne Hctx.
  destruct (rerankContexts_returns rt cfg env query contexts w) as [order Horder].
  exists order. split; [done|].
  unfold afterSearch. rewrite Hhits. cbn [js_length lift bind].
  assert (is_zero (JNat (length hs)) = false) as ->.
  { by destruct hs. }
  rewrite Hctx. cbn [lift bind].
  by rewrite (run_bind env (rerankContexts rt cfg query contexts)), Horder.
Qed.
End QueryRoute.

Lemma zero_hits_is_a_success_witness :
  let req := {| cq_query := JStr "xyzzy-unrelated-term";
                cq_category := JUndefined |} in
  outcome (run Sample.scripted (chatQuery Sample.rt Sample.defaults req)
             [Resolved Sample.ok;
              Resolved (JObj [("embeddings", JArr [JArr [JNum (Qc_of_Z 1)]])]);
              Resolved (JObj [("result", JArr [])])])
  = Ok {| status := 200;
          payload := JObj [("answer", JStr NO_INFORMATION);
                           ("citations", JArr [])] |}.
Proof.
  intros req.
  apply (zero_hits_is_a_success Sample.scripted Sample.rt Sample.defaults req _
           (search_call Sample.defaults (JArr [JNum (Qc_of_Z 1)]) JUndefined)
           (JObj [("result", JArr [])])).
  - vm_compute. apply list_elem_of_further, list_elem_of_further, list_elem_of_here.
  - reflexivity.
  - reflexivity.
Defined.

(** ** Generator *)

Section Generator.
Variable rt : Runtime.
Variable cfg : Config.

Lemma run_generateAnswer {W} (env : Env W) prompt (w : W) :
  run env (generateAnswer rt cfg prompt) w =
  let a := answer env (generate_call cfg prompt) w in
  {| outcome := answer_for_reply rt cfg a.1;
     trace := [EvHttp (generate_call cfg prompt) a.1];
     final := a.2 |}.
Proof.
  unfold generateAnswer, generate_call, answer_for_reply.
  destruct (String.eqb (LLM_PROVIDER cfg) "ollama").
  - rewrite run_catch_rethrow, (run_bind env (request _)), run_request.
    destruct (answer env _ w) as [[data|detail] w'];
      cbn [outcome trace final fst snd]; [|done].
    rewrite run_lift. by finish_run.
  - rewrite run_catch_rethrow, (run_bind env (request _)), run_request.
    destruct (answer env _ w) as [[data|detail] w'];
      cbn [outcome trace final fst snd]; [|done].
    rewrite run_lift. by finish_run.
Qed.

(** Both providers: a rejected request (transport error, timeout, error
    status) is thrown on. *)
Lemma generateAnswer_rejected {W} (env : Env W) prompt (w : W) detail :
  (answer env (generate_call cfg prompt) w).1 = Rejected detail →
  outcome (run env (generateAnswer rt cfg prompt) w) = Err (AxiosError detail).
Proof. intros Hr. rewrite run_generateAnswer. simpl. by rewrite Hr. Qed.

(** Provider B: a response without [choices], or with an empty list, is
    an error. *)
Lemma first_choice_content_missing data :
  truthy (prop data "choices") = false ∨ prop data "choices" = JArr [] →
  first_choice_content rt data = Err (Error "Invalid response from LLM provider").
Proof.
  unfold first_choice_content. intros [-> | ->].
  - by rewrite andb_false_r.
  - by destruct (truthy data).
Qed.

(** Provider B: the first choice of a non-empty list is used. *)
Lemma first_choice_content_first data choice rest :
  prop data "choices" = JArr (choice :: rest) →
  first_choice_content rt data =
  rbind (member choice "message") (λ message, member message "content").
Proof.
  unfold first_choice_content. intros Hc. rewrite Hc.
  assert (truthy data = true) as -> by (by destruct data).
  simpl. unfold gt_zero. by simpl.
Qed.
End Generator.

(** C7, at the failing input: with Provider A selected, a 2xx response
    whose body lacks the [response] field does not make [generateAnswer]
    fail; it returns [undefined]. *)
Theorem ollama_missing_text_is_returned :
  outcome (run Sample.scripted
             (generateAnswer Sample.rt Sample.defaults "prompt")
             [Resolved (JObj [("model", JStr "llama3.1:8b-instruct")])])
  = Ok JUndefined.
Proof. reflexivity. Qed.

(** ** Citations *)


Lemma Forall2_mapR {A B} (f : A → result B) xs ys :
  Forall2 (λ x y, f x = Ok y) xs ys → mapR f xs = Ok ys.
Proof.
  induction 1 as [|x y r ys Hx _ IH]; simpl; [done|]. by rewrite Hx, IH.
Qed.

Section Citations.
Variable rt : Runtime.
Variable cfg : Config.





End Citations.

Section TypedHits.
Variable rt : Runtime.
Variable cfg : Config.

Lemma cite_hit_json h : cite rt (hit_json h) = Ok (citation_of h).
Proof. reflexivity. Qed.

Lemma context_of_hit_json h : context_of (hit_json h) = Ok (JStr (hit_text h)).
Proof. reflexivity. Qed.

Lemma mapi_from_fmap {A B C} (g : A → B) (f : B → nat → C) from xs :
  mapi_from from f (g <$> xs) = mapi_from from (λ x k, f (g x) k) xs.
Proof.
  revert from. induction xs as [|x r IH]; intros from; simpl; [done|].
  by rewrite IH.
Qed.

(** For hits written by the ingestion route and a selection within their
    range, the citations and the marked contexts exist and are those of the
    selected hits, in the order of the selection. *)
Lemma citations_of_selected_hits (hs : list Hit) order :
  Forall (λ i, i < length hs) (selectedIndices cfg order) →
  ∃ selected,
    Forall2 (λ i h, hs !! i = Some h) (selectedIndices cfg order) selected
    ∧ citations rt cfg (hit_json <$> hs) order = Ok (citation_of <$> selected)
    ∧ contextString rt
        (selectedContexts cfg ((λ h, JStr (hit_text h)) <$> hs) order)
      = Ok (join (NL +:+ NL)
              (mapi (λ h k, "[" +:+ dec (k + 1) +:+ "] " +:+ hit_text h)
                 selected)).
Proof.
  unfold citations, contextString, selectedContexts, mapi.
  generalize (selectedIndices cfg order) as sel. intros sel Hsel.
  assert (Hex : ∃ selected, Forall2 (λ i h, hs !! i = Some h) sel selected).
  { induction Hsel as [|i l Hi _ (selected & IH)].
    - exists []. constructor.
    - destruct (lookup_lt_is_Some_2 hs i Hi) as [h Hh].
      exists (h :: selected). by constructor. }
  destruct Hex as (selected & Hsel2). exists selected.
  split; [done|]. split.
  - apply Forall2_mapR. apply Forall2_fmap_r.
    eapply Forall2_impl; [exact Hsel2|]. intros i h Hh. simpl.
    unfold at_index. by rewrite list_lookup_fmap, Hh.
  - assert (Hblocks : ∀ from,
              mapR (λ r, r)
                (mapi_from from (marked rt)
                   (map (λ i, at_index ((λ h, JStr (hit_text h)) <$> hs) i) sel))
              = Ok (mapi_from from
                      (λ h k, "[" +:+ dec (k + 1) +:+ "] " +:+ hit_text h)
                      selected)).
    { clear Hsel. induction Hsel2 as [|i h l hl Hh _ IH]; intros from; simpl; [done|].
      unfold at_index at 1. rewrite list_lookup_fmap, Hh. simpl.
      by rewrite IH. }
    by rewrite Hblocks.
Qed.
End TypedHits.

(** The scenario of five hits reranked to [[3, 0, 4, 1, 2]] with
    [MAX_CONTEXT = 3]: the citations are those of H3, H0, H4, and the
    markers [[1]], [[2]], [[3]] stand before the texts of H3, H0, H4. *)
Example citation_alignment_scenario :
  citations Sample.rt Sample.reranked (hit_json <$> Sample.five_hits)
    [3; 0; 4; 1; 2]
  = Ok [citation_of (Sample.hit "3"); citation_of (Sample.hit "0");
        citation_of (Sample.hit "4")]
  ∧ contextString Sample.rt
      (selectedContexts Sample.reranked
         ((λ h, JStr (hit_text h)) <$> Sample.five_hits) [3; 0; 4; 1; 2])
    = Ok ("[1] text 3" +:+ NL +:+ NL +:+ "[2] text 0" +:+ NL +:+ NL
          +:+ "[3] text 4").
Proof. split; reflexivity. Qed.


(** ** Chunker *)

(** C2, at failing inputs. A text of white space only has no word, and
    the chunker returns one chunk for it, as it does for the empty text; a
    document of 500 words that ends in white space is cut into two chunks
    under the limit 500, the second of them empty, where [ceil(500/500)] is
    one. *)
Theorem chunkText_counts_empty_tokens :
  (words " " = [] ∧ chunkText " " 500 = [" "])
  ∧ (words "" = [] ∧ chunkText "" 500 = [""])
  ∧ (length (words Sample.five_hundred_words) = 500
     ∧ length (chunkText Sample.five_hundred_words 500) = 2
     ∧ last (chunkText Sample.five_hundred_words 500) = Some "")
  ∧ (words " a b" = ["a"; "b"] ∧ chunkText " a b" 2 = [" a"; "b"]).
Proof. repeat split; vm_compute; reflexivity. Qed.

(** What the chunker does guarantee is stated on the tokens of
    [split_ws]: their number decides the number of chunks, and the chunks
    hold them all, in order. *)

Lemma ceil_div_spec n d :
  1 ≤ d → ceil_div n d = n / d + (if n mod d =? 0 then 0 else 1).
Proof.
  intros Hd. unfold ceil_div.
  pose proof (Nat.div_mod_eq n d) as Hn.
  pose proof (Nat.mod_upper_bound n d ltac:(lia)) as Hr.
  destruct (n mod d =? 0) eqn:Hz.
  - apply Nat.eqb_eq in Hz. symmetry.
    apply Nat.div_unique with (r := d - 1); lia.
  - apply Nat.eqb_neq in Hz. symmetry.
    apply Nat.div_unique with (r := n mod d - 1); lia.
Qed.

Lemma chunk_loop_length (L : nat) ws chunks current :
  1 ≤ L → length current < L →
  length (chunk_loop (Z.of_nat L) ws chunks current
            (Z.of_nat (length current))).1
  = length chunks + (length current + length ws) / L
  ∧ length (chunk_loop (Z.of_nat L) ws chunks current
              (Z.of_nat (length current))).2
    = (length current + length ws) mod L.
Proof.
  intros HL. revert chunks current.
  induction ws as [|word rest IH]; intros chunks current Hcur; simpl.
  - rewrite Nat.add_0_r. rewrite Nat.div_small, Nat.mod_small by lia. lia.
  - destruct (Z.of_nat L <=? Z.of_nat (length current) + 1)%Z eqn:Hfull.
    + apply Z.leb_le in Hfull.
      assert (Hlen : length current + S (length rest) = 1 * L + length rest) by lia.
      destruct (IH (chunks ++ [join " " (current ++ [word])]) []) as [H1 H2];
        [simpl; lia|].
      change (Z.of_nat (length (@nil string))) with 0%Z in H1, H2.
      change (length (@nil string) + length rest) with (length rest) in H1, H2.
      rewrite H1, H2, Hlen, length_app. simpl length.
      rewrite Nat.div_add_l by lia.
      rewrite (Nat.add_comm (1 * L)), Nat.Div0.mod_add. lia.
    + apply Z.leb_gt in Hfull.
      destruct (IH chunks (current ++ [word])) as [H1 H2].
      { rewrite length_app. simpl. lia. }
      rewrite length_app in H1, H2. simpl in H1, H2.
      replace (Z.of_nat (length current + 1)) with (Z.of_nat (length current) + 1)%Z
        in H1, H2 by lia.
      rewrite H1, H2.
      by replace (length current + 1 + length rest)
        with (length current + S (length rest)) by lia.
Qed.

(** For a limit [L] of at least one, the number of chunks is
    [ceil(n / L)] for the number [n] of tokens that [split] returns. *)
Lemma chunkText_count text (L : nat) :
  1 ≤ L →
  length (chunkText text (Z.of_nat L)) = ceil_div (length (split_ws text)) L.
Proof.
  intros HL. unfold chunkText.
  destruct (chunk_loop_length L (split_ws text) [] [] HL) as [H1 H2]; [simpl; lia|].
  change (Z.of_nat (length (@nil string))) with 0%Z in H1, H2.
  change (length (@nil string) + ?n) with n in H1, H2.
  destruct (chunk_loop (Z.of_nat L) (split_ws text) [] [] 0) as [chunks current].
  cbn [fst snd length Nat.add] in H1, H2.
  rewrite ceil_div_spec by done. rewrite <-H2, <-H1.
  destruct current; simpl; [lia|]. rewrite length_app. simpl. lia.
Qed.

(** *** The tokens of [split] *)

Lemma split_from_shape b text :
  ∃ t r, split_from b text = t :: r
         ∧ Forall space_free (t :: r)
         ∧ all_but_last_nonempty r
         ∧ (b = true → all_but_last_nonempty (t :: r)).
Proof.
  revert b. induction text as [|c rest IH]; intros b; simpl.
  - exists "", []. repeat split; constructor; done.
  - destruct (is_space c) eqn:Hc.
    + destruct (IH true) as (t & r & Hs & Hfree & Hr & Hall).
      destruct b.
      * exists t, r. by rewrite Hs.
      * exists "", (split_from true rest). rewrite Hs.
        split; [done|]. split; [by constructor|]. split; [by apply Hall|done].
    + destruct (IH false) as (t & r & Hs & Hfree & Hr & _).
      exists (String c t), r. rewrite Hs. simpl.
      apply Forall_cons in Hfree as [Ht Hfree].
      split; [done|]. split; [by constructor|]. split; [done|].
      intros _. by destruct r.
Qed.

Lemma split_ws_tokens_ok text : split_ws text ≠ [] ∧ tokens_ok (split_ws text).
Proof.
  unfold split_ws. destruct (split_from_shape false text) as (t & r & -> & ? & ? & _).
  by repeat split.
Qed.

Lemma all_but_last_nonempty_tail t r :
  all_but_last_nonempty (t :: r) → all_but_last_nonempty r.
Proof. destruct r; simpl; [done|]. by intros [_ ?]. Qed.

Lemma all_but_last_nonempty_app a b :
  all_but_last_nonempty (a ++ b) →
  all_but_last_nonempty a ∧ all_but_last_nonempty b.
Proof.
  induction a as [|x a IH]; simpl; [done|].
  destruct (a ++ b) as [|y l] eqn:Hab.
  - apply app_eq_nil in Hab as [-> ->]. done.
  - intros [Hx Hl]. destruct (IH Hl) as [Ha Hb]. split; [|done].
    by destruct a.
Qed.

Lemma tokens_ok_app a b : tokens_ok (a ++ b) → tokens_ok a ∧ tokens_ok b.
Proof.
  intros [Hfree Hinner]. apply Forall_app in Hfree as [Ha Hb].
  destruct a as [|x a]; simpl in *.
  - by repeat split.
  - apply all_but_last_nonempty_app in Hinner as [Hia Hib].
    repeat split; try done. destruct b; [done|].
    by apply all_but_last_nonempty_tail in Hib.
Qed.

Lemma split_from_space_free b t : space_free t → split_from b t = [t].
Proof.
  revert b. induction t as [|c r IH]; intros b; simpl; [done|].
  intros [-> Hr]. by rewrite IH.
Qed.

Lemma split_from_token b t rest :
  space_free t → b = false ∨ t ≠ "" →
  split_from b (t +:+ " " +:+ rest) = t :: split_from true rest.
Proof.
  revert b. induction t as [|c r IH]; intros b; simpl.
  - intros _ [-> | ?]; done.
  - intros [-> Hr] _. rewrite IH by auto. done.
Qed.

Lemma join_cons (t t' : string) (g : list string) :
  join " " (t :: t' :: g) = t +:+ " " +:+ join " " (t' :: g).
Proof. done. Qed.

(** Joining tokens with single spaces and splitting again gives the tokens
    back. *)
Lemma split_join (b : bool) (g : list string) :
  g ≠ [] → Forall space_free g →
  (if b then all_but_last_nonempty g else inner_nonempty g) →
  split_from b (join " " g) = g.
Proof.
  revert b. induction g as [|t r IH]; intros b Hne Hfree Hshape; [done|].
  apply Forall_cons in Hfree as [Ht Hr].
  destruct r as [|t' g].
  - simpl. by apply split_from_space_free.
  - rewrite join_cons, split_from_token.
    + rewrite (IH true); [done|done|done|].
      destruct b; [by destruct Hshape|done].
    + done.
    + destruct b; [right; by destruct Hshape|by left].
Qed.

(** *** The chunks hold the tokens *)

Lemma chunk_loop_groups L ws chunks current count :
  tokens_ok (current ++ ws) →
  ∃ groups,
    (chunk_loop L ws chunks current count).1
      = chunks ++ (join " " <$> groups)
    ∧ concat groups ++ (chunk_loop L ws chunks current count).2 = current ++ ws
    ∧ Forall (λ g, g ≠ [] ∧ tokens_ok g) groups
    ∧ tokens_ok (chunk_loop L ws chunks current count).2.
Proof.
  revert chunks current count.
  induction ws as [|word rest IH]; intros chunks current count Hok; simpl.
  - exists []. rewrite !app_nil_r in *. simpl. repeat split; try done; by destruct Hok.
  - rewrite (cons_middle word current rest), app_assoc in Hok.
    destruct (L <=? count + 1)%Z.
    + destruct (tokens_ok_app _ _ Hok) as [Hgroup Hrest].
      destruct (IH (chunks ++ [join " " (current ++ [word])]) [] 0%Z Hrest)
        as (groups & Hcs & Hall & Hgood & Hcur).
      exists ((current ++ [word]) :: groups). split; [|split; [|split]].
      * rewrite Hcs, <-app_assoc. done.
      * simpl. rewrite <-app_assoc, Hall. simpl. by rewrite <-app_assoc.
      * constructor; [|done]. split; [|done]. by destruct current.
      * done.
    + destruct (IH chunks (current ++ [word]) (count + 1)%Z Hok)
        as (groups & Hcs & Hall & Hgood & Hcur).
      exists groups. split; [done|]. split; [|done].
      rewrite Hall, <-app_assoc. done.
Qed.

(** For every limit, the words of the chunks, read in order as [split]
    reads them, are the tokens of the text: none lost, none repeated. *)
Lemma chunkText_tokens text L :
  concat (split_ws <$> chunkText text L) = split_ws text.
Proof.
  unfold chunkText.
  destruct (split_ws_tokens_ok text) as [_ Hok].
  destruct (chunk_loop_groups L (split_ws text) [] [] 0%Z Hok)
    as (groups & Hcs & Hall & Hgood & Hcur).
  destruct (chunk_loop L (split_ws text) [] [] 0) as [chunks current].
  simpl in *. subst chunks. rewrite <-Hall.
  assert (Hgroups : concat (split_ws <$> (join " " <$> groups)) = concat groups).
  { clear -Hgood. induction Hgood as [|g l [Hne [Hfree Hinner]] _ IH]; [done|].
    rewrite !fmap_cons. cbn [concat]. rewrite IH. f_equal.
    by apply (split_join false). }
  destruct current as [|t r]; cbn [length Nat.ltb Nat.leb].
  - by rewrite app_nil_r.
  - rewrite fmap_app, concat_app, Hgroups. rewrite fmap_cons. cbn [fmap list_fmap concat].
    rewrite app_nil_r.
    f_equal. destruct Hcur as [Hfree Hinner]. by apply (split_join false).
Qed.

(** *** Tokens and words *)

Lemma append_nil_r (s : string) : s +:+ "" = s.
Proof.
  induction s as [|c r IH]; [done|].
  change (String c r +:+ "") with (String c (r +:+ "")). by rewrite IH.
Qed.

Lemma append_char (s : string) c t : (s +:+ String c "") +:+ t = s +:+ String c t.
Proof.
  induction s as [|d r IH]; [done|].
  change ((String d r +:+ String c "") +:+ t)
    with (String d ((r +:+ String c "") +:+ t)).
  by rewrite IH.
Qed.

Lemma split_from_run text :
  split_from false text = split_from true text
  ∨ split_from false text = "" :: split_from true text.
Proof. destruct text as [|c r]; simpl; [by left|]. destruct (is_space c); auto. Qed.

Lemma filter_split_from_run text :
  filter (λ t, t ≠ "") (split_from true text)
  = filter (λ t, t ≠ "") (split_from false text).
Proof. by destruct (split_from_run text) as [-> | ->]. Qed.

Lemma words_acc_tokens cur text :
  ∃ t r, split_from false text = t :: r
         ∧ words_acc cur text = filter (λ t, t ≠ "") ((cur +:+ t) :: r).
Proof.
  revert cur. induction text as [|c rest IH]; intros cur; simpl.
  - exists "", []. split; [done|]. rewrite append_nil_r.
    rewrite filter_cons. by repeat case_decide; case_bool_decide.
  - destruct (is_space c).
    + exists "", (split_from true rest). split; [done|].
      rewrite append_nil_r, filter_cons, filter_split_from_run.
      destruct (IH "") as (t & r & Hs & ->). rewrite Hs. simpl.
      by repeat case_decide; case_bool_decide.
    + destruct (IH (cur +:+ String c "")) as (t & r & Hs & ->).
      exists (String c t), r. rewrite Hs. split; [done|].
      by rewrite append_char.
Qed.

(** The words of a text are the tokens of [split] that are not empty: the
    two differ by an empty token at the start of a text that begins with
    white space, at the end of one that ends with it, and for the empty
    text. *)
Lemma words_are_nonempty_tokens text :
  words text = filter (λ t, t ≠ "") (split_ws text).
Proof.
  unfold words, split_ws.
  by destruct (words_acc_tokens "" text) as (t & r & -> & ->).
Qed.

(** So the chunker meets its contract on the texts whose tokens are all
    words, which are the texts that are not empty and neither begin nor end
    with white space. *)
Lemma chunkText_on_trimmed_text text (L : nat) :
  1 ≤ L → Forall (λ t, t ≠ "") (split_ws text) →
  length (chunkText text (Z.of_nat L)) = ceil_div (length (words text)) L
  ∧ concat (split_ws <$> chunkText text (Z.of_nat L)) = words text.
Proof.
  intros HL Hne.
  assert (Hw : words text = split_ws text).
  { rewrite words_are_nonempty_tokens.
    induction Hne as [|t r Ht _ IH]; [done|].
    rewrite filter_cons. case_decide; [by rewrite IH|done]. }
  rewrite Hw. split; [by apply chunkText_count|apply chunkText_tokens].
Qed.

(** ** The routes, end to end *)

(** A query against five hits, reranked by scores that order them
    [[3, 0, 4, 1, 2]], with [MAX_CONTEXT = 3]: five requests, and the
    citations of H3, H0, H4. *)
Example chat_query_run :
  let r :=
    run Sample.scripted
      (chatQuery Sample.rt Sample.reranked
         {| cq_query := JStr "what is the leave policy?";
            cq_category := JStr "handbook" |})
      [Resolved Sample.ok;
       Resolved (JObj [("embeddings", JArr [JArr [JNum (Qc_of_Z 1)]])]);
       Resolved (JObj [("result", JArr (hit_json <$> Sample.five_hits))]);
       Resolved (Sample.scores [8 # 10; 3 # 10; 1 # 10; 9 # 10; 5 # 10]);
       Resolved (JObj [("response", JStr " Twenty days [1]. ")])] in
  outcome r
  = Ok (send 200
          (chat_response "Twenty days [1]."
             [citation_of (Sample.hit "3"); citation_of (Sample.hit "0");
              citation_of (Sample.hit "4")]))
  ∧ site <$> calls (trace r)
    = [CollectionCheck; Embed; Search; Rerank; GenerateOllama].
Proof. split; reflexivity. Qed.

(** An ingestion of a three-word text: one chunk, one point, and the
    requests in the order of the source. *)
Example ingest_text_run :
  let r :=
    run Sample.scripted
      (ingestText Sample.defaults
         {| it_text := JStr "twenty days leave"; it_category := JStr "handbook";
            it_title := JUndefined |})
      [Rejected "404"; Resolved Sample.ok;
       Resolved (JObj [("embeddings", JArr [JArr [JNum (Qc_of_Z 1)]])]);
       Resolved Sample.ok] in
  outcome r
  = Ok (send 200
          (JObj [("documentId", JStr "6f1c2a9e-0d3b-4c58-9a77-2b1e5d4c8f10");
                 ("chunks", JNat 1)]))
  ∧ site <$> calls (trace r)
    = [CollectionCheck; CollectionCreate; Embed; Upsert].
Proof. split; reflexivity. Qed.


(** * Further properties *)

(** ** Chunker *)

Lemma chunk_loop_sizes (L : nat) ws chunks current :
  1 ≤ L → length current < L →
  ∃ groups,
    (chunk_loop (Z.of_nat L) ws chunks current (Z.of_nat (length current))).1
      = chunks ++ (join " " <$> groups)
    ∧ concat groups
      ++ (chunk_loop (Z.of_nat L) ws chunks current
            (Z.of_nat (length current))).2
      = current ++ ws
    ∧ Forall (λ g, length g = L) groups
    ∧ length (chunk_loop (Z.of_nat L) ws chunks current
                (Z.of_nat (length current))).2 < L.
Proof.
  intros HL. revert chunks current.
  induction ws as [|word rest IH]; intros chunks current Hcur; simpl.
  - exists []. rewrite !app_nil_r. by repeat split.
  - destruct (Z.of_nat L <=? Z.of_nat (length current) + 1)%Z eqn:Hfull.
    + apply Z.leb_le in Hfull.
      destruct (IH (chunks ++ [join " " (current ++ [word])]) [])
        as (groups & Hcs & Hall & Hsizes & Hlast); [simpl; lia|].
      change (Z.of_nat (length (@nil string))) with 0%Z in Hcs, Hall, Hlast.
      exists ((current ++ [word]) :: groups). split; [|split; [|split]].
      * rewrite Hcs, <-app_assoc. done.
      * simpl. rewrite <-app_assoc, Hall. simpl. by rewrite <-app_assoc.
      * constructor; [|done]. rewrite length_app. simpl. lia.
      * done.
    + apply Z.leb_gt in Hfull.
      destruct (IH chunks (current ++ [word]))
        as (groups & Hcs & Hall & Hsizes & Hlast).
      { rewrite length_app. simpl. lia. }
      rewrite length_app in Hcs, Hall, Hlast. simpl in Hcs, Hall, Hlast.
      replace (Z.of_nat (length current + 1)) with (Z.of_nat (length current) + 1)%Z
        in Hcs, Hall, Hlast by lia.
      exists groups. split; [done|]. split; [|done].
      rewrite Hall, <-app_assoc. done.
Qed.

(** X1. For a limit [L] of at least one, the chunks are the tokens of
    [split] cut into consecutive groups, each group joined by single
    spaces: every group holds between one and [L] tokens, and every group
    but the last holds exactly [L]. *)
Theorem chunkText_groups text (L : nat) :
  1 ≤ L →
  ∃ groups,
    chunkText text (Z.of_nat L) = join " " <$> groups
    ∧ concat groups = split_ws text
    ∧ Forall (λ g, 1 ≤ length g ≤ L) groups
    ∧ ∀ i g, groups !! i = Some g → S i < length groups → length g = L.
Proof.
  intros HL. unfold chunkText.
  destruct (chunk_loop_sizes L (split_ws text) [] [] HL)
    as (groups & Hcs & Hall & Hsizes & Hlast); [simpl; lia|].
  change (Z.of_nat (length (@nil string))) with 0%Z in Hcs, Hall, Hlast.
  destruct (chunk_loop (Z.of_nat L) (split_ws text) [] [] 0) as [chunks current].
  cbn [fst snd app] in Hcs, Hall, Hlast. subst chunks.
  destruct current as [|t r]; cbn [length Nat.ltb Nat.leb].
  - exists groups. rewrite app_nil_r in Hall. split; [done|]. split; [done|]. split.
    + eapply Forall_impl; [exact Hsizes|]. intros g Hg. simpl in Hg. lia.
    + intros i g Hg _. rewrite Forall_forall in Hsizes. apply Hsizes.
      by eapply list_elem_of_lookup_2.
  - exists (groups ++ [t :: r]). split; [|split; [|split]].
    + by rewrite fmap_app.
    + rewrite concat_app. simpl. by rewrite app_nil_r.
    + apply Forall_app. split.
      * eapply Forall_impl; [exact Hsizes|]. intros g Hg. simpl in Hg. lia.
      * constructor; [|constructor]. simpl in *. lia.
    + intros i g Hg Hi. rewrite length_app in Hi. simpl in Hi.
      rewrite lookup_app_l in Hg by lia.
      rewrite Forall_forall in Hsizes. apply Hsizes.
      by eapply list_elem_of_lookup_2.
Qed.

Lemma chunkText_groups_witness :
  ∃ groups,
    chunkText "a b c d e" 2 = join " " <$> groups
    ∧ concat groups = ["a"; "b"; "c"; "d"; "e"].
Proof.
  destruct (chunkText_groups "a b c d e" 2) as (groups & Hc & Hall & _).
  - lia.
  - exists groups. split; [exact Hc|exact Hall].
Defined.

(** X2. Whatever the text and the limit, the chunker returns at least one
    chunk: also for the empty text, and also for a limit of zero or
    below. *)
Theorem chunkText_never_empty text L : chunkText text L ≠ [].
Proof.
  unfold chunkText.
  destruct (split_ws_tokens_ok text) as [Hne Hok].
  destruct (chunk_loop_groups L (split_ws text) [] [] 0%Z Hok)
    as (groups & Hcs & Hall & _ & _).
  destruct (chunk_loop L (split_ws text) [] [] 0) as [chunks current].
  cbn [fst snd app] in Hcs, Hall. subst chunks.
  destruct current as [|t r]; cbn [length Nat.ltb Nat.leb].
  - rewrite app_nil_r in Hall. destruct groups; [by rewrite <-Hall in Hne|done].
  - intros Heq. by apply app_eq_nil in Heq as [_ ?].
Qed.

Lemma chunk_loop_flush L ws chunks :
  (L ≤ 1)%Z → chunk_loop L ws chunks [] 0%Z = (chunks ++ ws, []).
Proof.
  intros HL. revert chunks. induction ws as [|word rest IH]; intros chunks; simpl.
  - by rewrite app_nil_r.
  - destruct (L <=? 0 + 1)%Z eqn:Hfull; [|apply Z.leb_gt in Hfull; lia].
    rewrite IH. by rewrite <-app_assoc.
Qed.

(** X3. With a limit of one, zero or a negative number, every token of
    [split] is a chunk of its own. *)
Theorem chunkText_small_limit text L :
  (L ≤ 1)%Z → chunkText text L = split_ws text.
Proof.
  intros HL. unfold chunkText. by rewrite chunk_loop_flush.
Qed.

Lemma chunkText_small_limit_witness :
  chunkText "twenty days leave" 0 = ["twenty"; "days"; "leave"].
Proof. apply (chunkText_small_limit "twenty days leave" 0). lia. Defined.

Lemma append_assoc (a b c : string) : (a +:+ b) +:+ c = a +:+ b +:+ c.
Proof.
  induction a as [|x a IH]; [done|].
  change ((String x a +:+ b) +:+ c) with (String x ((a +:+ b) +:+ c)).
  by rewrite IH.
Qed.

Lemma join_app (a b : list string) :
  a ≠ [] → b ≠ [] →
  join " " (a ++ b) = join " " a +:+ " " +:+ join " " b.
Proof.
  intros Ha Hb. induction a as [|x a IH]; [done|].
  destruct a as [|y a].
  - simpl. by destruct b.
  - change (join " " ((x :: y :: a) ++ b))
      with (x +:+ " " +:+ join " " ((y :: a) ++ b)).
    rewrite IH by done. rewrite join_cons.
    by rewrite !append_assoc.
Qed.

Lemma join_join (groups : list (list string)) :
  Forall (λ g, g ≠ []) groups →
  join " " (join " " <$> groups) = join " " (concat groups).
Proof.
  induction 1 as [|g gs Hg Hgs IH]; [done|].
  destruct gs as [|g' gs].
  - simpl. by rewrite app_nil_r.
  - rewrite !fmap_cons in *. rewrite join_cons, IH.
    change (concat (g :: g' :: gs)) with (g ++ concat (g' :: gs)).
    rewrite join_app; [done|done|].
    apply Forall_cons in Hgs as [Hg' _]. by destruct g'.
Qed.

Lemma chunkText_join_groups text L :
  ∃ groups,
    chunkText text L = join " " <$> groups
    ∧ concat groups = split_ws text
    ∧ Forall (λ g, g ≠ []) groups.
Proof.
  unfold chunkText.
  destruct (split_ws_tokens_ok text) as [_ Hok].
  destruct (chunk_loop_groups L (split_ws text) [] [] 0%Z Hok)
    as (groups & Hcs & Hall & Hgood & _).
  destruct (chunk_loop L (split_ws text) [] [] 0) as [chunks current].
  cbn [fst snd app] in Hcs, Hall. subst chunks.
  assert (Hne : Forall (λ g : list string, g ≠ []) groups).
  { eapply Forall_impl; [exact Hgood|]. by intros g [? _]. }
  destruct current as [|t r]; cbn [length Nat.ltb Nat.leb].
  - exists groups. by rewrite app_nil_r in Hall.
  - exists (groups ++ [t :: r]). split; [by rewrite fmap_app|]. split.
    + rewrite concat_app. simpl. by rewrite app_nil_r.
    + apply Forall_app. split; [done|]. by repeat constructor.
Qed.

Lemma join_cons_head c (l : list string) :
  l ≠ [] → join " " (cons_head c l) = String c (join " " l).
Proof. destruct l as [|p [|q r]]; done. Qed.

Lemma split_from_not_nil b text : split_from b text ≠ [].
Proof. destruct (split_from_shape b text) as (t & r & -> & _). done. Qed.

Lemma join_split_single_spaced b text :
  single_spaced text →
  (b = true → match text with
              | String d _ => is_space d = false
              | "" => True
              end) →
  join " " (split_from b text) = text.
Proof.
  revert b. induction text as [|c rest IH]; intros b Hs Hb; [done|].
  destruct Hs as [Hc Hrest]. simpl.
  destruct (is_space c) eqn:Hsp.
  - destruct b; [by specialize (Hb eq_refl)|].
    destruct (Hc eq_refl) as [-> Hnext].
    pose proof (split_from_not_nil true rest) as Hne.
    destruct (split_from true rest) as [|p l] eqn:Hsplit; [done|].
    rewrite join_cons, <-Hsplit, IH; done.
  - rewrite join_cons_head by apply split_from_not_nil.
    by rewrite IH.
Qed.

(** X4. Whatever the limit, the chunks joined by single spaces are the
    text itself, when the white space of the text is single spaces: the
    chunker loses no character of such a text and adds none. *)
Theorem chunkText_rejoins text L :
  single_spaced text → join " " (chunkText text L) = text.
Proof.
  intros Hs.
  destruct (chunkText_join_groups text L) as (groups & -> & Hall & Hne).
  rewrite join_join, Hall by done.
  by apply (join_split_single_spaced false).
Qed.

Lemma chunkText_rejoins_witness :
  join " " (chunkText " twenty days of leave " 2) = " twenty days of leave ".
Proof.
  apply (chunkText_rejoins " twenty days of leave " 2).
  vm_compute. repeat split; intros; discriminate.
Defined.

(** ** Programs that always reply *)

Lemma replies_run {W A} (env : Env W) (P : A → Prop) (p : Prog A) (w : W) :
  replies P p → ∃ a, outcome (run env p w) = Ok a ∧ P a.
Proof.
  revert w. induction p as [a|e|c k IH|k IH]; intros w; simpl.
  - intros Ha. by exists a.
  - done.
  - intros Hk. destruct (answer env c w) as [r w']. simpl. by apply IH.
  - intros Hk. destruct (draw env w) as [s w']. simpl. by apply IH.
Qed.

Lemma returns_only_run {W A} (env : Env W) (P : A → Prop) (p : Prog A) (w : W) a :
  returns_only P p → outcome (run env p w) = Ok a → P a.
Proof.
  revert w. induction p as [a'|e|c k IH|k IH]; intros w; simpl.
  - by intros Ha [= <-].
  - done.
  - intros Hk. destruct (answer env c w) as [r w']. simpl. by apply IH.
  - intros Hk. destruct (draw env w) as [s w']. simpl. by apply IH.
Qed.

Lemma returns_only_bind {A B} (P : B → Prop) (p : Prog A) (f : A → Prog B) :
  (∀ a, returns_only P (f a)) → returns_only P (bind p f).
Proof.
  intros Hf. induction p as [a|e|c k IH|k IH]; simpl; [done|done| |].
  - intros r. apply IH.
  - intros s. apply IH.
Qed.

Lemma returns_only_catch {A} (P : A → Prop) (p : Prog A) (h : exn → Prog A) :
  returns_only P p → (∀ e, returns_only P (h e)) → returns_only P (catch p h).
Proof.
  intros Hp Hh. induction p as [a|e|c k IH|k IH]; simpl in *; [done|done| |].
  - intros r. by apply IH.
  - intros s. by apply IH.
Qed.

Lemma returns_only_lift {A} (P : A → Prop) (r : result A) :
  (∀ a, r = Ok a → P a) → returns_only P (lift r).
Proof. destruct r; simpl; auto. Qed.

Lemma returns_only_weaken {A} (P Q : A → Prop) (p : Prog A) :
  (∀ a, P a → Q a) → returns_only P p → returns_only Q p.
Proof.
  intros HPQ. induction p as [a|e|c k IH|k IH]; simpl; [by apply HPQ|done| |].
  - intros Hk r. by apply IH.
  - intros Hk s. by apply IH.
Qed.

(** A [try] whose [catch] replies, replies. *)
Lemma replies_catch {A} (P : A → Prop) (p : Prog A) (h : exn → Prog A) :
  returns_only P p → (∀ e, replies P (h e)) → replies P (catch p h).
Proof.
  intros Hp Hh. induction p as [a|e|c k IH|k IH]; simpl in *; [done|done| |].
  - intros r. by apply IH.
  - intros s. by apply IH.
Qed.

(** ** Embedding client *)

Section Embedding.
Variable cfg : Config.

Lemma run_embedTexts {W} (env : Env W) texts (w : W) :
  run env (embedTexts cfg texts) w =
  let a := answer env (embed_call cfg texts) w in
  {| outcome := vectors_for_reply a.1;
     trace := [EvHttp (embed_call cfg texts) a.1];
     final := a.2 |}.
Proof.
  unfold embedTexts, vectors_for_reply.
  rewrite run_catch_rethrow, (run_bind env (request _)), run_request.
  destruct (answer env _ w) as [[data|detail] w'];
    cbn [outcome trace final fst snd]; [|done].
  destruct (prop data "embeddings") eqn:Hp;
    try (rewrite andb_false_r; by finish_run).
  assert (truthy data = true) as -> by (by destruct data).
  by finish_run.
Qed.

(** X5. [embedTexts] makes exactly one request, a POST of all the texts
    with a timeout of 30 seconds. It returns the array under [embeddings]
    of the response as it is, whatever its length (the number of vectors
    is not compared with the number of texts); a response without such an
    array is the error "Invalid response from embeddings service", and a
    rejected request is thrown on. *)
Theorem embedTexts_checks_the_shape_only {W} (env : Env W) texts (w : W) :
  let reply := (answer env (embed_call cfg texts) w).1 in
  let r := run env (embedTexts cfg texts) w in
  trace r = [EvHttp (embed_call cfg texts) reply]
  ∧ method (embed_call cfg texts) = POST
  ∧ timeout (embed_call cfg texts) = Some 30000%N
  ∧ on_the_wire (body (embed_call cfg texts))
    = JObj [("inputs", on_the_wire (JArr texts))]
  ∧ match reply with
    | Rejected detail => outcome r = Err (AxiosError detail)
    | Resolved data =>
        match prop data "embeddings" with
        | JArr vectors => outcome r = Ok vectors
        | _ => outcome r = Err (Error "Invalid response from embeddings service")
        end
    end.
Proof.
  intros reply r. subst r. rewrite run_embedTexts. cbn [outcome trace].
  fold reply. repeat split; try done.
  unfold vectors_for_reply. destruct reply as [data|detail]; [|done].
  by destruct (prop data "embeddings").
Qed.
End Embedding.

(** ** Ingestion route *)

Lemma draws_length {W} (env : Env W) n (w : W) : length (draws env n w).1 = n.
Proof.
  revert w. induction n as [|n IH]; intros w; simpl; [done|].
  destruct (draw env w) as [s w1]. specialize (IH w1).
  destruct (draws env n w1) as [ss w2]. simpl in *. by rewrite IH.
Qed.

Lemma points_from_length documentId category title vectors from chunks ids :
  length ids = length chunks →
  length (points_from documentId category title vectors from chunks ids)
  = length chunks.
Proof.
  revert from ids. induction chunks as [|c cs IH]; intros from [|i ids]; simpl;
    try done.
  intros [= Hlen]. by rewrite IH.
Qed.

Lemma points_from_lookup documentId category title vectors from chunks ids k chunk id :
  chunks !! k = Some chunk → ids !! k = Some id →
  points_from documentId category title vectors from chunks ids !! k
  = Some (point_json documentId category title vectors chunk (from + k) id).
Proof.
  revert from ids k. induction chunks as [|c cs IH]; intros from [|i ids] [|k];
    simpl; try done.
  - intros [= <-] [= <-]. by rewrite Nat.add_0_r.
  - intros Hc Hi. rewrite (IH (S from) ids k) by done.
    by replace (S from + k) with (from + S k) by lia.
Qed.

Section IngestRoute.
Context {W : Type} (env : Env W).
Variable cfg : Config.

Lemma run_uuidv4 (w : W) :
  run env uuidv4 w =
  {| outcome := Ok (draw env w).1; trace := [EvUuid (draw env w).1];
     final := (draw env w).2 |}.
Proof. unfold uuidv4. simpl. by destruct (draw env w). Qed.

Lemma run_point documentId category title vectors chunk idx (w : W) :
  run env (point documentId category title vectors chunk idx) w =
  {| outcome := Ok (point_json documentId category title vectors chunk idx
                      (draw env w).1);
     trace := [EvUuid (draw env w).1];
     final := (draw env w).2 |}.
Proof. unfold point. simpl. by destruct (draw env w). Qed.

(** The points are built by drawing one identifier per chunk, in the order
    of the chunks. *)
Lemma run_points documentId category title vectors from chunks (w : W) :
  run env (mapP (point documentId category title vectors) from chunks) w =
  {| outcome := Ok (points_from documentId category title vectors from chunks
                      (draws env (length chunks) w).1);
     trace := EvUuid <$> (draws env (length chunks) w).1;
     final := (draws env (length chunks) w).2 |}.
Proof.
  revert from w. induction chunks as [|c cs IH]; intros from w; [done|].
  cbn [mapP length draws].
  rewrite (run_bind env (point _ _ _ _ c from)), run_point.
  destruct (draw env w) as [id w1]. cbn [outcome trace final fst snd].
  rewrite (run_bind env (mapP _ _ cs)), IH.
  destruct (draws env (length cs) w1) as [ids w2].
  by finish_run.
Qed.

(** The run of the ingestion route on a request that passes validation,
    stage by stage. *)
Lemma run_ingestText req (w : W) :
  truthy (it_text req) = true → truthy (it_category req) = true →
  run env (ingestText cfg req) w =
  let r1 := run env (ensureCollection cfg) w in
  match outcome r1 with
  | Err _ => {| outcome := Ok ingest_failure; trace := trace r1; final := final r1 |}
  | Ok _ =>
      let d := draw env (final r1) in
      match chunk_field (it_text req) with
      | Err _ =>
          {| outcome := Ok ingest_failure; trace := trace r1 ++ [EvUuid d.1];
             final := d.2 |}
      | Ok chunks =>
          let r2 := run env (embedTexts cfg (JStr <$> chunks)) d.2 in
          match outcome r2 with
          | Err _ =>
              {| outcome := Ok ingest_failure;
                 trace := trace r1 ++ EvUuid d.1 :: trace r2;
                 final := final r2 |}
          | Ok vectors =>
              let ids := draws env (length chunks) (final r2) in
              let points :=
                points_from d.1 (it_category req) (it_title req) vectors 0
                  chunks ids.1 in
              let a := answer env (upsert_call cfg points) ids.2 in
              {| outcome :=
                   Ok (match a.1 with
                       | Resolved _ =>
                           send 200 (JObj [("documentId", JStr d.1);
                                           ("chunks", JNat (length points))])
                       | Rejected _ => ingest_failure
                       end);
                 trace := trace r1 ++ EvUuid d.1 :: trace r2
                          ++ (EvUuid <$> ids.1)
                          ++ [EvHttp (upsert_call cfg points) a.1];
                 final := a.2 |}
          end
      end
  end.
Proof.
  intros Ht Hc. unfold ingestText. rewrite Ht, Hc. cbn [negb orb]. cbv iota beta zeta.
  rewrite run_catch, (run_bind env (ensureCollection cfg)).
  destruct (run env (ensureCollection cfg) w) as [[[]|e1] t1 w1];
    cbn [outcome trace final failed]; [|by finish_run].
  rewrite (run_bind env uuidv4), run_uuidv4.
  destruct (draw env w1) as [doc w2]. cbn [outcome trace final fst snd].
  rewrite (run_bind env (lift _)), run_lift. cbn [outcome trace final].
  destruct (chunk_field (it_text req)) as [chunks|e2];
    cbn [outcome trace final failed after].
  2: { by finish_run. }
  rewrite (run_bind env (embedTexts cfg _)).
  destruct (run env (embedTexts cfg (JStr <$> chunks)) w2) as [[vectors|e3] t3 w3];
    cbn [outcome trace final failed after]; [|by finish_run].
  rewrite (run_bind env (mapP _ _ _)), run_points.
  destruct (draws env (length chunks) w3) as [ids w4].
  cbn [outcome trace final failed after fst snd].
  rewrite (run_bind env (request _)), run_request.
  destruct (answer env _ w4) as [[data|detail] w5];
    cbn [outcome trace final failed after fst snd]; by finish_run.
Qed.
End IngestRoute.

Section IngestProperties.
Context {W : Type} (env : Env W).
Variable cfg : Config.

(** X6. When the ingestion route replies 200: the text was a string; the
    reply names the document identifier drawn and the number of chunks of
    [chunkText(text, 500)]; all the chunks were sent to the embedding
    backend in one request; and the last request of the run is the one
    upsert, which carries one point per chunk, in the order of the chunks.
    The point of chunk [k] has an identifier of its own, the payload
    [{documentId, category, text: chunk, title || ''}] with the one
    document identifier, and the vector at index [k] of the embeddings. *)
Theorem ingest_upserts_one_point_per_chunk req (w : W) resp :
  outcome (run env (ingestText cfg req) w) = Ok resp →
  status resp = 200 →
  ∃ s documentId data vectors ids ack,
    let chunks := chunkText s 500 in
    let points :=
      points_from documentId (it_category req) (it_title req) vectors 0
        chunks ids in
    it_text req = JStr s
    ∧ resp = {| status := 200;
                payload := JObj [("documentId", JStr documentId);
                                 ("chunks", JNat (length chunks))] |}
    ∧ EvHttp (embed_call cfg (JStr <$> chunks)) (Resolved data)
      ∈ trace (run env (ingestText cfg req) w)
    ∧ prop data "embeddings" = JArr vectors
    ∧ last (trace (run env (ingestText cfg req) w))
      = Some (EvHttp (upsert_call cfg points) (Resolved ack))
    ∧ length points = length chunks
    ∧ ∀ k chunk,
        chunks !! k = Some chunk →
        ∃ id,
          ids !! k = Some id
          ∧ points !! k
            = Some (JObj [("id", JStr id);
                          ("payload",
                           JObj [("documentId", JStr documentId);
                                 ("category", it_category req);
                                 ("text", JStr chunk);
                                 ("title", if truthy (it_title req)
                                           then it_title req else JStr "")]);
                          ("vector", at_index vectors k)]).
Proof.
  destruct (truthy (it_text req)) eqn:Ht.
  2: { unfold ingestText. rewrite Ht. simpl. by intros [= <-]. }
  destruct (truthy (it_category req)) eqn:Hc.
  2: { unfold ingestText. rewrite Ht, Hc. simpl. by intros [= <-]. }
  rewrite run_ingestText by done. cbv zeta.
  destruct (run env (ensureCollection cfg) w) as [[[]|e1] t1 w1];
    cbn [outcome trace final]; [|by intros [= <-]].
  destruct (draw env w1) as [doc w2]. cbn [fst snd].
  destruct (it_text req) as [| | | |s| |] eqn:Htext; simpl chunk_field;
    try by intros [= <-].
  cbv iota beta.
  rewrite run_embedTexts. cbn [outcome trace final].
  destruct (answer env (embed_call cfg (JStr <$> chunkText s 500)) w2)
    as [[data|detail] w3]; cbn [fst snd vectors_for_reply]; [|by intros [= <-]].
  destruct (prop data "embeddings") as [| | | | |vectors|] eqn:Hemb;
    try by intros [= <-].
  pose proof (draws_length env (length (chunkText s 500)) w3) as Hids.
  destruct (draws env (length (chunkText s 500)) w3) as [ids w4].
  cbn [fst snd] in *.
  destruct (answer env _ w4) as [[ack|detail] w5]; cbn [fst snd];
    [|by intros [= <-]].
  intros [= <-] _.
  exists s, doc, data, vectors, ids, ack. cbv zeta. cbn [trace].
  split; [done|]. split.
  { by rewrite points_from_length. }
  split.
  { rewrite elem_of_app. right. apply list_elem_of_further, list_elem_of_here. }
  split; [done|]. split.
  { change (EvUuid doc :: ?a ++ ?b ++ ?c) with ((EvUuid doc :: a ++ b) ++ c).
    by rewrite app_assoc, last_snoc. }
  split; [by apply points_from_length|].
  intros k chunk Hk.
  destruct (lookup_lt_is_Some_2 ids k) as [id Hid].
  { rewrite Hids. by eapply lookup_lt_Some. }
  exists id. split; [done|].
  by rewrite (points_from_lookup _ _ _ _ 0 _ _ k chunk id).
Qed.

(** An upsert is the last event of a run of the handler, and an
    embedding request answered with an embeddings array stands before
    it. *)
Lemma upsert_is_last_and_after_embedding req (w : W) c r :
  EvHttp c r ∈ trace (run env (ingestText cfg req) w) →
  site c = Upsert →
  ∃ pre c' data vectors,
    trace (run env (ingestText cfg req) w) = pre ++ [EvHttp c r]
    ∧ Forall (λ c0, site c0 ≠ Upsert) (calls pre)
    ∧ EvHttp c' (Resolved data) ∈ pre
    ∧ site c' = Embed
    ∧ prop data "embeddings" = JArr vectors.
Proof.
  destruct (truthy (it_text req)) eqn:Ht.
  2: { unfold ingestText. rewrite Ht. simpl. by intros ?%not_elem_of_nil. }
  destruct (truthy (it_category req)) eqn:Hc.
  2: { unfold ingestText. rewrite Ht, Hc. simpl. by intros ?%not_elem_of_nil. }
  rewrite run_ingestText by done. cbv zeta.
  pose proof (only_calls_run env _ _ w (ensureCollection_calls cfg)) as H1.
  destruct (run env (ensureCollection cfg) w) as [[[]|e1] t1 w1];
    cbn [outcome trace final] in *.
  2: { intros Hin%event_in_calls Hs. rewrite Forall_forall in H1.
       apply H1 in Hin as [-> | ->]; done. }
  assert (Hpre : Forall (λ c0, site c0 ≠ Upsert) (calls t1)).
  { eapply Forall_impl; [exact H1|]. by intros c0 [-> | ->]. }
  assert (Hnot : EvHttp c r ∈ t1 → site c = Upsert → False).
  { intros Hin%event_in_calls Hs. rewrite Forall_forall in Hpre.
    by apply Hpre in Hin. }
  destruct (draw env w1) as [doc w2]. cbn [fst snd].
  destruct (chunk_field (it_text req)) as [chunks|e2].
  2: { cbn [trace]. rewrite elem_of_app, list_elem_of_singleton.
       intros [Hin|Heq] Hs; [by destruct (Hnot Hin Hs)|done]. }
  rewrite run_embedTexts. cbn [outcome trace final].
  destruct (answer env (embed_call cfg (JStr <$> chunks)) w2)
    as [[data|detail] w3]; cbn [fst snd vectors_for_reply].
  2: { cbn [trace]. rewrite elem_of_app, !elem_of_cons.
       intros [Hin|[Heq|[Heq|Hin]]] Hs;
         [by destruct (Hnot Hin Hs)|done| |by apply not_elem_of_nil in Hin].
       by injection Heq as -> _. }
  destruct (prop data "embeddings") as [| | | | |vectors|] eqn:Hemb;
    cbn [trace].
  1-5,7: rewrite elem_of_app, !elem_of_cons;
    intros [Hin|[Heq|[Heq|Hin]]] Hs;
      [by destruct (Hnot Hin Hs)|done| |by apply not_elem_of_nil in Hin];
    by injection Heq as -> _.
  destruct (draws env (length chunks) w3) as [ids w4]. cbn [fst snd].
  destruct (answer env _ w4) as [reply w5]. cbn [fst snd].
  intros Hin Hs.
  apply elem_of_app in Hin as [Hin|Hin]; [by destruct (Hnot Hin Hs)|].
  apply elem_of_cons in Hin as [Heq|Hin]; [done|].
  apply elem_of_cons in Hin as [Heq|Hin]; [by injection Heq as -> _|].
  apply elem_of_app in Hin as [Hin|Hin].
  { apply list_elem_of_fmap in Hin as (id & Heq & _). done. }
  apply list_elem_of_singleton in Hin. injection Hin as -> ->.
  exists (t1 ++ EvUuid doc
            :: EvHttp (embed_call cfg (JStr <$> chunks)) (Resolved data)
            :: (EvUuid <$> ids)),
    (embed_call cfg (JStr <$> chunks)), data, vectors.
  split; [by rewrite <-!app_assoc|]. split; [|split; [|done]].
  - rewrite calls_app. apply Forall_app. split; [done|].
    simpl. constructor; [done|].
    apply Forall_forall. intros c0 Hc0. exfalso.
    apply list_elem_of_omap in Hc0 as (ev & Hev & Hsome).
    apply list_elem_of_fmap in Hev as (id & -> & _). done.
  - rewrite elem_of_app. right. apply list_elem_of_further, list_elem_of_here.
Qed.

Lemma calls_uuids ids : calls (EvUuid <$> ids) = [].
Proof. induction ids as [|id ids IH]; [done|exact IH]. Qed.

Lemma calls_http c r t : calls (EvHttp c r :: t) = c :: calls t.
Proof. done. Qed.

Lemma calls_uuid id t : calls (EvUuid id :: t) = calls t.
Proof. done. Qed.

Lemma ingestText_sites req (w : W) :
  ingest_protocol (site <$> calls (trace (run env (ingestText cfg req) w)))
  = true.
Proof.
  destruct (truthy (it_text req)) eqn:Ht.
  2: { unfold ingestText. by rewrite Ht. }
  destruct (truthy (it_category req)) eqn:Hc.
  2: { unfold ingestText. by rewrite Ht, Hc. }
  rewrite run_ingestText by done. cbv zeta.
  rewrite (run_ensureCollection env cfg).
  assert (Hsites : ∀ pre (w1 : W),
            pre = [check_call cfg] ∨ pre = [check_call cfg; create_call cfg] →
            ∀ t, after_ingest_provision (site <$> calls t) = true →
                 ingest_protocol (site <$> (pre ++ calls t)) = true).
  { intros pre w1 [-> | ->] t Ht'; cbn [app fmap list_fmap site check_call create_call ingest_protocol]; [|done].
    by destruct (site <$> calls t) as [|[] ?]. }
  destruct (answer env (check_call cfg) w) as [[d1|absent] w1];
    cbn [outcome trace final fst snd].
  - destruct (draw env w1) as [doc w2]. cbn [fst snd].
    destruct (chunk_field (it_text req)) as [chunks|e]; [|done].
    rewrite run_embedTexts. cbn [outcome trace final].
    destruct (answer env (embed_call cfg (JStr <$> chunks)) w2) as [r2 w3].
    cbn [fst snd]. destruct (vectors_for_reply r2) as [vectors|e]; [|done].
    destruct (draws env (length chunks) w3) as [ids w4]. cbn [fst snd].
    cbn [trace app].
    by rewrite calls_http, calls_uuid, calls_http, calls_app, calls_uuids.
  - destruct (answer env (create_call cfg) w1) as [[d|detail] w1'];
      cbn [outcome trace final fst snd]; [|done].
    destruct (draw env w1') as [doc w2]. cbn [fst snd].
    destruct (chunk_field (it_text req)) as [chunks|e]; [|done].
    rewrite run_embedTexts. cbn [outcome trace final].
    destruct (answer env (embed_call cfg (JStr <$> chunks)) w2) as [r2 w3].
    cbn [fst snd]. destruct (vectors_for_reply r2) as [vectors|e]; [|done].
    destruct (draws env (length chunks) w3) as [ids w4]. cbn [fst snd].
    cbn [trace app].
    by rewrite !calls_http, calls_uuid, calls_http, calls_app, calls_uuids.
Qed.

Lemma sites_before_upsert l :
  ingest_protocol (l ++ [Upsert]) = true →
  l = [CollectionCheck; Embed] ∨ l = [CollectionCheck; CollectionCreate; Embed].
Proof.
  destruct l as [|s1 [|s2 [|s3 [|s4 [|s5 l]]]]]; cbn; try done;
    repeat match goal with
           | s : Site |- _ => destruct s; cbn; try done
           end; auto; by destruct l.
Qed.

(** X7. The ingestion route addresses its backends in one fixed order,
    each at most once: the existence check, the creation of the collection
    (sent when the check is rejected), the embedding request and the upsert
    of the points; a stage is reached only after those before it. The
    upsert is the last request of a run and is sent only after the
    embedding backend has answered with an embeddings array: when the
    embedding fails no point is written. The creation of the collection is
    the one request to the vector store that may stand before the
    embedding, also in a run whose embedding then fails. A body that is
    [null] or [undefined] leads to no request at all. *)
Theorem ingest_requests_follow_the_pipeline body (w : W) :
  let t := trace (run env (postIngestText cfg body) w) in
  ingest_protocol (site <$> calls t) = true
  ∧ (nullish body = true → t = [])
  ∧ ∀ c r,
      EvHttp c r ∈ t → site c = Upsert →
      ∃ pre c' data vectors,
        t = pre ++ [EvHttp c r]
        ∧ Forall (λ c0, site c0 = CollectionCheck ∨ site c0 = CollectionCreate
                        ∨ site c0 = Embed) (calls pre)
        ∧ EvHttp c' (Resolved data) ∈ pre
        ∧ site c' = Embed
        ∧ prop data "embeddings" = JArr vectors.
Proof.
  cbv zeta. rewrite run_postIngestText.
  destruct (ingest_fields body) as [req|e] eqn:Hfields.
  2: { cbn [trace]. split; [done|]. split; [done|].
       by intros c r ?%not_elem_of_nil. }
  split; [apply ingestText_sites|]. split.
  { intros Hbody. apply fields_of_nullish_body in Hbody as [_ Hbody].
    by rewrite Hbody in Hfields. }
  intros c r Hin Hsite.
  destruct (upsert_is_last_and_after_embedding req w c r Hin Hsite)
    as (pre & c' & data & vectors & Htrace & Hpre & Hemb & Hc' & Hdata).
  exists pre, c', data, vectors. split; [done|]. split; [|done].
  pose proof (ingestText_sites req w) as Hsites.
  rewrite Htrace, calls_app, fmap_app in Hsites. cbn in Hsites.
  rewrite Hsite in Hsites.
  assert (Hbefore : Forall (λ s, s = CollectionCheck ∨ s = CollectionCreate
                                ∨ s = Embed) (site <$> calls pre)).
  { destruct (sites_before_upsert _ Hsites) as [-> | ->];
      repeat (apply Forall_cons_2; [auto|]); apply Forall_nil_2. }
  by apply Forall_fmap in Hbefore.
Qed.
End IngestProperties.

(** The collection can be created in a run whose embedding then fails:
    the route answers 500 and has sent the existence check, the creation
    and the embedding request. *)
Example ingest_creates_before_failed_embedding :
  let r := run Sample.scripted
             (postIngestText Sample.defaults
                (JObj [("text", JStr "twenty days leave");
                       ("category", JStr "handbook")]))
             [Rejected "404"; Resolved Sample.ok; Rejected "503"] in
  outcome r = Ok ingest_failure
  ∧ site <$> calls (trace r) = [CollectionCheck; CollectionCreate; Embed].
Proof. by vm_compute. Qed.

Lemma ingest_upserts_one_point_per_chunk_witness :
  ∃ points ack,
    last (trace (run Sample.scripted
                   (ingestText Sample.defaults
                      {| it_text := JStr "twenty days leave";
                         it_category := JStr "handbook";
                         it_title := JUndefined |})
                   [Resolved Sample.ok;
                    Resolved (JObj [("embeddings", JArr [JArr [JNum (Qc_of_Z 1)]])]);
                    Resolved Sample.ok]))
    = Some (EvHttp (upsert_call Sample.defaults points) (Resolved ack))
    ∧ length points = 1.
Proof.
  destruct (ingest_upserts_one_point_per_chunk Sample.scripted Sample.defaults
              {| it_text := JStr "twenty days leave";
                 it_category := JStr "handbook"; it_title := JUndefined |}
              [Resolved Sample.ok;
               Resolved (JObj [("embeddings", JArr [JArr [JNum (Qc_of_Z 1)]])]);
               Resolved Sample.ok]
              (send 200
                 (JObj [("documentId", JStr "6f1c2a9e-0d3b-4c58-9a77-2b1e5d4c8f10");
                        ("chunks", JNat 1)])))
    as (s & doc & data & vectors & ids & ack & Hs & _ & _ & _ & Hlast & Hlen & _).
  - reflexivity.
  - reflexivity.
  - injection Hs as <-. eexists _, ack. split; [exact Hlast|exact Hlen].
Defined.

(** ** The exceptions of the routes *)

Section Replies.
Variable rt : Runtime.
Variable cfg : Config.

Lemma answerFrom_returns_200 query hits contexts order :
  returns_only (λ resp, status resp = 200)
    (answerFrom rt cfg query hits contexts order).
Proof.
  unfold answerFrom.
  apply returns_only_bind. intros cits.
  apply returns_only_bind. intros ctxs.
  apply returns_only_bind. intros prompt.
  apply returns_only_bind. intros raw.
  apply returns_only_bind. intros trimmed. done.
Qed.

Lemma afterSearch_returns_200 query data :
  returns_only (λ resp, status resp = 200) (afterSearch rt cfg query data).
Proof.
  unfold afterSearch. apply returns_only_bind. intros len.
  destruct (is_zero len); [done|].
  destruct (hits_of data); try done.
  apply returns_only_bind. intros contexts.
  apply returns_only_bind. intros order.
  apply answerFrom_returns_200.
Qed.

(** No exception leaves the [try] of a handler: from the destructured
    fields on, a run ends in a reply. *)
Lemma handlers_catch_failures {W} (env : Env W) (w : W)
    (query : ChatQueryRequest) (ingest : IngestTextRequest) :
  (∃ resp, outcome (run env (chatQuery rt cfg query) w) = Ok resp
           ∧ route_reply (JObj [("error", JStr "Failed to process chat query")])
               resp)
  ∧ (∃ resp, outcome (run env (ingestText cfg ingest) w) = Ok resp
             ∧ route_reply (JObj [("error", JStr "Failed to ingest document")])
                 resp)
  ∧ (∃ resp, outcome (run env (healthz cfg) w) = Ok resp
             ∧ (resp = send 200 (JObj [("status", JStr "ok")])
                ∨ resp = send 500 (JObj [("status", JStr "error")]))).
Proof.
  split; [|split]; apply replies_run.
  - unfold chatQuery. destruct (negb _); [by right; left|].
    apply replies_catch; [|intros e; right; right; done].
    apply returns_only_bind. intros _.
    apply returns_only_bind. intros vectors.
    apply returns_only_bind. intros data.
    eapply returns_only_weaken; [|apply afterSearch_returns_200].
    intros resp Hs. by left.
  - unfold ingestText. destruct (_ || _); [by right; left|].
    apply replies_catch; [|intros e; right; right; done].
    apply returns_only_bind. intros _.
    apply returns_only_bind. intros documentId.
    apply returns_only_bind. intros chunks.
    apply returns_only_bind. intros vectors.
    apply returns_only_bind. intros points.
    apply returns_only_bind. intros _. by left.
  - unfold healthz. apply replies_catch; [|intros e; by right].
    apply returns_only_bind. intros _. by left.
Qed.

(** X8. Which exceptions leave the handlers, in runs whose requests are
    all settled (resolved or rejected; a request that is never answered
    is outside this statement, and the two provisioning requests carry no
    timeout). The one exception that leaves the query and the ingestion
    handler is the [TypeError] of destructuring a body that is [null] or
    [undefined], which stands before the [try]: the handler then sends no
    reply of its own. For every other body, whatever the body holds and
    however the backends answer, the handler ends in a reply with status
    200, 400 or 500, and a 500 reply has the fixed body of the route: no
    detail of the failure is in it. The health handler, which reads no
    body, always ends in 200 [{status: 'ok'}] or 500
    [{status: 'error'}]. *)
Theorem routes_catch_their_failures {W} (env : Env W) (w : W) (body : jsval) :
  (if nullish body
   then outcome (run env (postChatQuery rt cfg body) w) = Err TypeError
        ∧ outcome (run env (postIngestText cfg body) w) = Err TypeError
   else (∃ resp, outcome (run env (postChatQuery rt cfg body) w) = Ok resp
                 ∧ route_reply
                     (JObj [("error", JStr "Failed to process chat query")])
                     resp)
        ∧ (∃ resp, outcome (run env (postIngestText cfg body) w) = Ok resp
                   ∧ route_reply
                       (JObj [("error", JStr "Failed to ingest document")])
                       resp))
  ∧ (∃ resp, outcome (run env (healthz cfg) w) = Ok resp
             ∧ (resp = send 200 (JObj [("status", JStr "ok")])
                ∨ resp = send 500 (JObj [("status", JStr "error")]))).
Proof.
  rewrite run_postChatQuery, run_postIngestText.
  destruct (nullish body) eqn:Hbody.
  - destruct (fields_of_nullish_body body Hbody) as [-> ->].
    split; [done|].
    apply (handlers_catch_failures env w
             {| cq_query := JUndefined; cq_category := JUndefined |}
             {| it_text := JUndefined; it_category := JUndefined;
                it_title := JUndefined |}).
  - rewrite (query_fields_of_body body Hbody),
      (ingest_fields_of_body body Hbody).
    destruct (handlers_catch_failures env w
                {| cq_query := prop body "query";
                   cq_category := prop body "category" |}
                {| it_text := prop body "text";
                   it_category := prop body "category";
                   it_title := prop body "title" |}) as (Hq & Hi & Hh).
    done.
Qed.
End Replies.

(** ** Health route *)

(** X9. The health route is [ensureCollection] and nothing else, so the
    probe writes: when the existence check is rejected it sends the
    creation request. It replies 200 when the check succeeds or the
    creation succeeds, and 500 only when the creation is rejected. *)
Theorem healthz_provisions {W} (env : Env W) cfg (w : W) :
  run env (healthz cfg) w =
  match answer env (check_call cfg) w with
  | (Resolved data, w1) =>
      {| outcome := Ok (send 200 (JObj [("status", JStr "ok")]));
         trace := [EvHttp (check_call cfg) (Resolved data)]; final := w1 |}
  | (Rejected absent, w1) =>
      match answer env (create_call cfg) w1 with
      | (Resolved data, w2) =>
          {| outcome := Ok (send 200 (JObj [("status", JStr "ok")]));
             trace := [EvHttp (check_call cfg) (Rejected absent);
                       EvHttp (create_call cfg) (Resolved data)];
             final := w2 |}
      | (Rejected detail, w2) =>
          {| outcome := Ok (send 500 (JObj [("status", JStr "error")]));
             trace := [EvHttp (check_call cfg) (Rejected absent);
                       EvHttp (create_call cfg) (Rejected detail)];
             final := w2 |}
      end
  end.
Proof.
  unfold healthz.
  rewrite run_catch, (run_bind env (ensureCollection cfg)), run_ensureCollection.
  destruct (answer env (check_call cfg) w) as [[data|absent] w1];
    cbn [outcome trace final]; [by finish_run|].
  destruct (answer env (create_call cfg) w1) as [[data|detail] w2];
    cbn [outcome trace final failed]; by finish_run.
Qed.

(** ** Generator, by provider *)

Section Providers.
Variable rt : Runtime.
Variable cfg : Config.

(** X10. Under both providers [generateAnswer] makes exactly one request,
    with a timeout of 300 seconds, and a rejected request (transport
    error, timeout, error status) is thrown on to the caller: nothing is
    retried. *)
Theorem generation_failure_is_thrown {W} (env : Env W) prompt (w : W) detail :
  (answer env (generate_call cfg prompt) w).1 = Rejected detail →
  outcome (run env (generateAnswer rt cfg prompt) w) = Err (AxiosError detail)
  ∧ trace (run env (generateAnswer rt cfg prompt) w)
    = [EvHttp (generate_call cfg prompt) (Rejected detail)]
  ∧ timeout (generate_call cfg prompt) = Some 300000%N.
Proof.
  intros Hr. rewrite run_generateAnswer. cbn [outcome trace]. rewrite Hr.
  repeat split. unfold generate_call. by destruct (String.eqb _ _).
Qed.

(** X11. Every provider name other than 'ollama' selects the
    chat-completion protocol: one POST to [/v1/chat/completions], and when
    the response holds a non-empty [choices] array, the value returned is
    [choices[0].message.content] of the first choice, the others being
    ignored. *)
Theorem chat_completion_uses_first_choice {W} (env : Env W) prompt (w : W)
    data choice rest :
  LLM_PROVIDER cfg ≠ "ollama" →
  (answer env (openai_call cfg prompt) w).1 = Resolved data →
  prop data "choices" = JArr (choice :: rest) →
  outcome (run env (generateAnswer rt cfg prompt) w)
  = rbind (member choice "message") (λ message, member message "content")
  ∧ trace (run env (generateAnswer rt cfg prompt) w)
    = [EvHttp (openai_call cfg prompt) (Resolved data)]
  ∧ url (openai_call cfg prompt) = LLM_BASE_URL cfg +:+ "/v1/chat/completions".
Proof.
  intros Hp Hr Hc. rewrite run_generateAnswer. cbn [outcome trace].
  unfold generate_call, answer_for_reply.
  apply String.eqb_neq in Hp. rewrite Hp, Hr.
  by rewrite (first_choice_content_first rt data choice rest).
Qed.

(** X12. Under the chat-completion protocol, a response without
    [choices], or with an empty [choices] array, makes [generateAnswer]
    throw the error "Invalid response from LLM provider". *)
Theorem chat_completion_without_choice_fails {W} (env : Env W) prompt (w : W)
    data :
  LLM_PROVIDER cfg ≠ "ollama" →
  (answer env (openai_call cfg prompt) w).1 = Resolved data →
  truthy (prop data "choices") = false ∨ prop data "choices" = JArr [] →
  outcome (run env (generateAnswer rt cfg prompt) w)
  = Err (Error "Invalid response from LLM provider").
Proof.
  intros Hp Hr Hc. rewrite run_generateAnswer. cbn [outcome].
  unfold generate_call, answer_for_reply.
  apply String.eqb_neq in Hp. rewrite Hp, Hr.
  by apply first_choice_content_missing.
Qed.

(** X13. Under the provider 'ollama', [generateAnswer] makes one POST to
    [/api/generate] and returns the [response] property of a response
    object; a response whose data is [null] or [undefined] makes the
    property access throw a [TypeError]. *)
Theorem ollama_returns_the_response_field {W} (env : Env W) prompt (w : W) data :
  LLM_PROVIDER cfg = "ollama" →
  (answer env (ollama_call cfg prompt) w).1 = Resolved data →
  trace (run env (generateAnswer rt cfg prompt) w)
  = [EvHttp (ollama_call cfg prompt) (Resolved data)]
  ∧ url (ollama_call cfg prompt) = LLM_BASE_URL cfg +:+ "/api/generate"
  ∧ match data with
    | JObj props =>
        outcome (run env (generateAnswer rt cfg prompt) w)
        = Ok (own props "response")
    | JUndefined | JNull =>
        outcome (run env (generateAnswer rt cfg prompt) w) = Err TypeError
    | _ => outcome (run env (generateAnswer rt cfg prompt) w) = Ok JUndefined
    end.
Proof.
  intros Hp Hr. rewrite run_generateAnswer. cbn [outcome trace].
  unfold generate_call, answer_for_reply. rewrite Hp. simpl String.eqb. cbv iota.
  rewrite Hr. repeat split. by destruct data.
Qed.
End Providers.

Lemma generation_failure_is_thrown_witness :
  outcome (run Sample.scripted
             (generateAnswer Sample.rt Sample.defaults "prompt")
             [Rejected "timeout of 300000ms exceeded"])
  = Err (AxiosError "timeout of 300000ms exceeded").
Proof.
  apply (generation_failure_is_thrown Sample.rt Sample.defaults Sample.scripted
           "prompt" [Rejected "timeout of 300000ms exceeded"]).
  reflexivity.
Defined.

Lemma chat_completion_uses_first_choice_witness :
  outcome (run Sample.scripted
             (generateAnswer Sample.rt Sample.chat_completion "prompt")
             [Resolved (JObj [("choices",
                 JArr [JObj [("message", JObj [("content", JStr "first")])];
                       JObj [("message", JObj [("content", JStr "second")])]])])])
  = Ok (JStr "first").
Proof.
  apply (chat_completion_uses_first_choice Sample.rt Sample.chat_completion
           Sample.scripted "prompt" _
           (JObj [("choices",
              JArr [JObj [("message", JObj [("content", JStr "first")])];
                    JObj [("message", JObj [("content", JStr "second")])]])])
           (JObj [("message", JObj [("content", JStr "first")])])
           [JObj [("message", JObj [("content", JStr "second")])]]).
  - discriminate.
  - reflexivity.
  - reflexivity.
Defined.

Lemma chat_completion_without_choice_fails_witness :
  outcome (run Sample.scripted
             (generateAnswer Sample.rt Sample.chat_completion "prompt")
             [Resolved (JObj [("choices", JArr [])])])
  = Err (Error "Invalid response from LLM provider").
Proof.
  apply (chat_completion_without_choice_fails Sample.rt Sample.chat_completion
           Sample.scripted "prompt" _ (JObj [("choices", JArr [])])).
  - discriminate.
  - reflexivity.
  - right. reflexivity.
Defined.

Lemma ollama_returns_the_response_field_witness :
  trace (run Sample.scripted
           (generateAnswer Sample.rt Sample.defaults "prompt")
           [Resolved (JObj [("response", JStr "Twenty days.")])])
  = [EvHttp (ollama_call Sample.defaults "prompt")
       (Resolved (JObj [("response", JStr "Twenty days.")]))].
Proof.
  apply (ollama_returns_the_response_field Sample.rt Sample.defaults
           Sample.scripted "prompt"
           [Resolved (JObj [("response", JStr "Twenty days.")])]
           (JObj [("response", JStr "Twenty days.")])).
  - reflexivity.
  - reflexivity.
Defined.

(** ** The order of the requests of a query *)

Section QueryProtocol.
Context {W : Type} (env : Env W).
Variable rt : Runtime.
Variable cfg : Config.

Lemma generate_call_sites prompt :
  after_rerank [site (generate_call cfg prompt)] = true.
Proof. unfold generate_call. by destruct (String.eqb _ _). Qed.

Lemma answerFrom_sites query hits contexts order (w : W) :
  after_rerank
    (site <$> calls (trace (run env (answerFrom rt cfg query hits contexts order) w)))
  = true.
Proof.
  unfold answerFrom.
  rewrite (run_bind env (lift _)), run_lift. cbn [outcome trace final].
  destruct (citations rt cfg hits order) as [cits|e]; [|done].
  rewrite (run_bind env (lift _)), run_lift. cbn [outcome trace final].
  destruct (contextString rt (selectedContexts cfg contexts order)) as [ctxs|e];
    [|done].
  rewrite (run_bind env (lift _)), run_lift. cbn [outcome trace final].
  destruct (compose_prompt rt ctxs query) as [prompt|e]; [|done].
  rewrite (run_bind env (generateAnswer rt cfg prompt)), run_generateAnswer.
  cbn [outcome trace final].
  destruct (answer_for_reply rt cfg _) as [raw|e];
    [|apply generate_call_sites].
  rewrite (run_bind env (lift _)), run_lift. cbn [outcome trace final].
  destruct (js_trim raw) as [trimmed|e]; apply generate_call_sites.
Qed.

Lemma afterSearch_sites query data (w : W) :
  after_search
    (site <$> calls (trace (run env (afterSearch rt cfg query data) w))) = true.
Proof.
  unfold afterSearch.
  rewrite (run_bind env (lift _)), run_lift. cbn [outcome trace final].
  destruct (js_length (hits_of data)) as [len|e]; [|done].
  cbn [after trace app]. destruct (is_zero len); [done|].
  destruct (hits_of data) as [| | | | |hs|]; try done.
  rewrite (run_bind env (lift _)), run_lift. cbn [outcome trace final].
  destruct (mapR context_of hs) as [contexts|e]; [|done].
  cbn [after trace app].
  rewrite (run_bind env (rerankContexts rt cfg query contexts)).
  destruct (decide (RERANK_BASE_URL cfg = "")) as [Hurl|Hurl].
  - rewrite rerankContexts_unconfigured by done. cbn [run outcome trace final].
    rewrite after_nil.
    pose proof (answerFrom_sites query hs contexts
                  (identity_permutation (length contexts)) w) as Hs.
    by destruct (site <$> calls (trace (run env (answerFrom _ _ _ _ _ _) w)))
      as [|[] [|? ?]].
  - rewrite run_rerankContexts by done. cbn [outcome trace final after].
    apply answerFrom_sites.
Qed.

(** X14. In every world and for every request, the query route addresses
    its backends in one fixed order, each at most once: the existence
    check, the creation of the collection, the embedding, the search, the
    rerank, and one generation request. No request is repeated, and a
    stage is reached only after the stages before it, of which only the
    creation and the rerank may be left out. *)
Theorem query_requests_follow_the_pipeline req (w : W) :
  query_protocol (site <$> calls (trace (run env (chatQuery rt cfg req) w)))
  = true.
Proof.
  destruct (truthy (cq_query req)) eqn:Hq.
  2: { unfold chatQuery. by rewrite Hq. }
  rewrite run_chatQuery by done. cbv zeta.
  rewrite run_ensureCollection, run_embedTexts.
  destruct (answer env (check_call cfg) w) as [[d1|absent] w1];
    cbn [outcome trace final fst snd].
  - destruct (answer env (embed_call cfg [cq_query req]) w1) as [r2 w2];
      cbn [fst snd].
    destruct (vectors_for_reply r2) as [vectors|e]; [|done].
    destruct (answer env _ w2) as [[data|detail] w3]; cbn [fst snd trace];
      [|done].
    apply (afterSearch_sites (cq_query req) data w3).
  - destruct (answer env (create_call cfg) w1) as [[d1|detail] w1'];
      cbn [outcome trace final fst snd]; [|done].
    destruct (answer env (embed_call cfg [cq_query req]) w1') as [r2 w2];
      cbn [fst snd].
    destruct (vectors_for_reply r2) as [vectors|e]; [|done].
    destruct (answer env _ w2) as [[data|detail] w3]; cbn [fst snd trace];
      [|done].
    apply (afterSearch_sites (cq_query req) data w3).
Qed.
End QueryProtocol.

(** ** Answers and citations *)

Lemma drop_spaces_head cs :
  match drop_spaces cs with c :: _ => is_space c = false | [] => True end.
Proof.
  induction cs as [|c r IH]; simpl; [done|].
  destruct (is_space c) eqn:Hc; [done|]. by simpl.
Qed.

Lemma drop_spaces_suffix cs : ∃ pre, cs = pre ++ drop_spaces cs.
Proof.
  induction cs as [|c r [pre IH]]; simpl; [by exists []|].
  destruct (is_space c).
  - exists (c :: pre). simpl. by rewrite <-IH.
  - by exists [].
Qed.

Lemma drop_spaces_fixed cs :
  match cs with c :: _ => is_space c = false | [] => True end →
  drop_spaces cs = cs.
Proof. destruct cs as [|c r]; simpl; [done|]. by intros ->. Qed.

Lemma trim_trimmed s : trimmed (trim s).
Proof.
  unfold trimmed, trim. rewrite list_ascii_of_string_of_list_ascii, rev_involutive.
  split; [|apply drop_spaces_head].
  pose proof (drop_spaces_head (list_ascii_of_string s)) as Hhead.
  destruct (drop_spaces_suffix (rev (drop_spaces (list_ascii_of_string s))))
    as [pre Hpre].
  apply (f_equal (@rev ascii)) in Hpre. rewrite rev_involutive, rev_app_distr in Hpre.
  rewrite Hpre in Hhead.
  by destruct (rev (drop_spaces (rev (drop_spaces (list_ascii_of_string s))))).
Qed.

(** Trimming a trimmed string changes nothing. *)
Lemma trim_of_trimmed s : trimmed s → trim s = s.
Proof.
  intros [Hfirst Hlast]. unfold trim.
  rewrite (drop_spaces_fixed _ Hfirst), (drop_spaces_fixed _ Hlast).
  by rewrite rev_involutive, string_of_list_ascii_of_string.
Qed.

Lemma slice0_nonneg {A} (xs : list A) (e : Z) :
  (0 ≤ e)%Z → slice0 xs e = take (Z.to_nat e) xs.
Proof.
  intros He. unfold slice0.
  destruct (e <? 0)%Z eqn:Hneg; [lia|].
  destruct (decide (e ≤ Z.of_nat (length xs))%Z) as [Hle|Hgt].
  - by rewrite Z.min_l.
  - rewrite Z.min_r by lia. rewrite Nat2Z.id.
    rewrite !firstn_all2; [done|lia|lia].
Qed.

Lemma mapR_context_of_hits (hs : list Hit) :
  mapR context_of (hit_json <$> hs) = Ok ((λ h, JStr (hit_text h)) <$> hs).
Proof. induction hs as [|h r IH]; [done|]. rewrite !fmap_cons. simpl. by rewrite IH. Qed.

Lemma selected_from_identity (hs : list Hit) m (sel : list Hit) :
  Forall2 (λ i h, hs !! i = Some h) (take m (seq 0 (length hs))) sel →
  sel = take m hs.
Proof.
  intros Hsel. apply list_eq. intros k.
  destruct (sel !! k) as [h|] eqn:Hk.
  - destruct (Forall2_lookup_r _ _ _ _ _ Hsel Hk) as (i & Hi & Hh).
    apply lookup_take_Some in Hi as [Hi Hkm].
    apply lookup_seq in Hi as [-> _]. simpl in Hh.
    by rewrite lookup_take_lt.
  - symmetry. apply lookup_ge_None. apply lookup_ge_None in Hk.
    apply Forall2_length in Hsel. rewrite length_take, length_seq in Hsel.
    rewrite length_take. lia.
Qed.

Section Answers.
Context {W : Type} (env : Env W).
Variable rt : Runtime.
Variable cfg : Config.

(** The reply of the handler continued from a reranked order, when it
    sends one. *)
Lemma answerFrom_reply query hits contexts order (w : W) resp :
  outcome (run env (answerFrom rt cfg query hits contexts order) w) = Ok resp →
  ∃ cits raw,
    citations rt cfg hits order = Ok cits
    ∧ resp = send 200 (chat_response (trim raw) cits).
Proof.
  unfold answerFrom.
  rewrite (run_bind env (lift _)), run_lift. cbn [outcome trace final].
  destruct (citations rt cfg hits order) as [cits|e]; [|done].
  rewrite (run_bind env (lift _)), run_lift. cbn [outcome trace final].
  destruct (contextString rt (selectedContexts cfg contexts order)) as [ctxs|e];
    [|done].
  rewrite (run_bind env (lift _)), run_lift. cbn [outcome trace final].
  destruct (compose_prompt rt ctxs query) as [prompt|e]; [|done].
  rewrite (run_bind env (generateAnswer rt cfg prompt)), run_generateAnswer.
  cbn [outcome trace final].
  destruct (answer_for_reply rt cfg _) as [raw|e]; [|done].
  rewrite (run_bind env (lift _)), run_lift. cbn [outcome trace final].
  destruct raw as [| | | |s| |]; try done.
  cbn [js_trim run after outcome]. intros [= <-].
  by exists cits, s.
Qed.

(** X15. The answer of a reply that the query route builds from a
    generated text is that text trimmed: it neither begins nor ends with
    white space, and a text that is not a string never reaches a reply. *)
Theorem answers_are_trimmed query hits contexts order (w : W) resp :
  outcome (run env (answerFrom rt cfg query hits contexts order) w) = Ok resp →
  ∃ prompt raw cits reply,
    EvHttp (generate_call cfg prompt) reply
    ∈ trace (run env (answerFrom rt cfg query hits contexts order) w)
    ∧ answer_for_reply rt cfg reply = Ok (JStr raw)
    ∧ resp = send 200 (chat_response (trim raw) cits)
    ∧ trimmed (trim raw).
Proof.
  unfold answerFrom.
  rewrite (run_bind env (lift _)), run_lift. cbn [outcome trace final].
  destruct (citations rt cfg hits order) as [cits|e]; [|done].
  rewrite (run_bind env (lift _)), run_lift. cbn [outcome trace final].
  destruct (contextString rt (selectedContexts cfg contexts order)) as [ctxs|e];
    [|done].
  rewrite (run_bind env (lift _)), run_lift. cbn [outcome trace final].
  destruct (compose_prompt rt ctxs query) as [prompt|e]; [|done].
  rewrite (run_bind env (generateAnswer rt cfg prompt)), run_generateAnswer.
  cbn [outcome trace final].
  destruct (answer_for_reply rt cfg _) as [raw|e] eqn:Hraw; [|done].
  rewrite (run_bind env (lift _)), run_lift. cbn [outcome trace final].
  destruct raw as [| | | |s| |]; try done.
  cbn [js_trim run after outcome trace app]. intros [= <-].
  exists prompt, s, cits, (answer env (generate_call cfg prompt) w).1.
  split; [apply list_elem_of_here|]. split; [done|]. split; [done|].
  apply trim_trimmed.
Qed.

(** X16. Without a rerank backend and with a [MAX_CONTEXT] that is not
    negative, the citations of a reply are those of the first
    [MAX_CONTEXT] hits of the search, in the order of the search, and the
    run holds no rerank request. *)
Theorem unreranked_citations_are_the_top_hits query data (hs : list Hit)
    (w : W) resp :
  RERANK_BASE_URL cfg = "" →
  (0 ≤ MAX_CONTEXT cfg)%Z →
  hits_of data = JArr (hit_json <$> hs) →
  outcome (run env (afterSearch rt cfg query data) w) = Ok resp →
  (∃ text,
     resp = send 200
              (chat_response text
                 (citation_of <$> take (Z.to_nat (MAX_CONTEXT cfg)) hs)))
  ∧ Forall (λ c, site c ≠ Rerank)
      (calls (trace (run env (afterSearch rt cfg query data) w))).
Proof.
  intros Hurl Hmax Hhits. unfold afterSearch. rewrite Hhits.
  cbn [js_length lift bind].
  destruct hs as [|h hs'].
  { simpl. intros [= <-]. split; [|constructor].
    exists NO_INFORMATION. by rewrite take_nil. }
  set (hs := h :: hs') in *.
  assert (is_zero (JNat (length (hit_json <$> hs))) = false) as -> by done.
  rewrite mapR_context_of_hits. cbn [lift bind].
  rewrite rerankContexts_unconfigured by done. cbn [bind].
  rewrite length_fmap.
  intros Hout. split.
  - destruct (answerFrom_reply _ _ _ _ _ _ Hout) as (cits & raw & Hcits & ->).
    eexists. f_equal. f_equal.
    destruct (citations_of_selected_hits rt cfg hs
                (identity_permutation (length hs)))
      as (selected & Hsel & Hcits' & _).
    { unfold selectedIndices. rewrite slice0_nonneg by done.
      apply Forall_take, Forall_forall. intros i Hi.
      apply list_elem_of_In, in_seq in Hi. lia. }
    rewrite Hcits' in Hcits. injection Hcits as <-.
    unfold selectedIndices in Hsel. rewrite slice0_nonneg in Hsel by done.
    by rewrite (selected_from_identity hs _ selected Hsel).
  - eapply Forall_impl.
    + apply only_calls_run, answerFrom_calls.
    + intros c [Hc|Hc]; by rewrite Hc.
Qed.
End Answers.

Lemma answers_are_trimmed_witness :
  ∃ text cits,
    outcome (run Sample.scripted
               (answerFrom Sample.rt Sample.reranked (JStr "q")
                  (hit_json <$> Sample.five_hits)
                  ((λ h, JStr (hit_text h)) <$> Sample.five_hits)
                  [3; 0; 4; 1; 2])
               [Resolved (JObj [("response", JStr "  Twenty days.  ")])])
    = Ok (send 200 (chat_response (trim text) cits))
    ∧ trimmed (trim text).
Proof.
  destruct (answers_are_trimmed Sample.scripted Sample.rt Sample.reranked
              (JStr "q") (hit_json <$> Sample.five_hits)
              ((λ h, JStr (hit_text h)) <$> Sample.five_hits)
              [3; 0; 4; 1; 2]
              [Resolved (JObj [("response", JStr "  Twenty days.  ")])]
              (send 200
                 (chat_response "Twenty days."
                    [citation_of (Sample.hit "3"); citation_of (Sample.hit "0");
                     citation_of (Sample.hit "4")])))
    as (prompt & raw & cits & reply & _ & _ & Hresp & Htrim).
  - reflexivity.
  - exists raw, cits. split; [|exact Htrim].
    rewrite <-Hresp. reflexivity.
Defined.

Lemma unreranked_citations_are_the_top_hits_witness :
  ∃ text,
    send 200
      (chat_response "Twenty days."
         [citation_of (Sample.hit "0"); citation_of (Sample.hit "1");
          citation_of (Sample.hit "2"); citation_of (Sample.hit "3");
          citation_of (Sample.hit "4")])
    = send 200
        (chat_response text
           (citation_of <$> take (Z.to_nat (MAX_CONTEXT Sample.defaults))
                              Sample.five_hits)).
Proof.
  apply (unreranked_citations_are_the_top_hits Sample.scripted Sample.rt
           Sample.defaults (JStr "q")
           (JObj [("result", JArr (hit_json <$> Sample.five_hits))])
           Sample.five_hits
           [Resolved (JObj [("response", JStr "  Twenty days.  ")])]).
  - reflexivity.
  - vm_compute. discriminate.
  - reflexivity.
  - reflexivity.
Defined.

(** ** The query route without a query vector *)

(** X17. The query route does not look at what the embedding service
    returned beyond its being an array: when the array is empty,
    [vectors[0]] is [undefined] and the search request goes out all the
    same, with a body that has no [vector] key on the wire. *)
Theorem empty_embedding_searches_without_vector {W} (env : Env W) rt cfg
    (req : ChatQueryRequest) (w : W) data :
  truthy (cq_query req) = true →
  outcome (run env (ensureCollection cfg) w) = Ok () →
  (answer env (embed_call cfg [cq_query req])
     (final (run env (ensureCollection cfg) w))).1 = Resolved data →
  prop data "embeddings" = JArr [] →
  ∃ c, c ∈ calls (trace (run env (chatQuery rt cfg req) w))
       ∧ c = search_call cfg JUndefined (searchFilter (cq_category req))
       ∧ has_key (on_the_wire (body c)) "vector" = false.
Proof.
  intros Hq Hensure Hreply Hdata.
  exists (search_call cfg JUndefined (searchFilter (cq_category req))).
  split; [|split; [done|]].
  - rewrite (run_chatQuery env rt cfg req w Hq). cbv zeta.
    rewrite Hensure, run_embedTexts. cbn [outcome trace final].
    rewrite Hreply. cbn [vectors_for_reply]. rewrite Hdata.
    change (at_index [] 0) with JUndefined.
    set (call := search_call cfg JUndefined (searchFilter (cq_category req))).
    assert (Hin : ∀ r pre mid post,
               call ∈ calls (pre ++ mid ++ EvHttp call r :: post)).
    { intros r pre mid post. unfold calls.
      apply list_elem_of_omap. exists (EvHttp call r). split; [|done].
      apply elem_of_app. right. apply elem_of_app. right.
      apply list_elem_of_here. }
    destruct (answer env call _) as [[found|detail] w3];
      cbn [fst snd trace]; apply Hin.
  - unfold searchFilter. by destruct (truthy (cq_category req)).
Qed.

Lemma empty_embedding_searches_without_vector_witness :
  ∃ c, c ∈ calls (trace (run Sample.scripted
                           (chatQuery Sample.rt Sample.defaults
                              {| cq_query := JStr "q"; cq_category := JUndefined |})
                           [Resolved Sample.ok;
                            Resolved (JObj [("embeddings", JArr [])])]))
       ∧ c = search_call Sample.defaults JUndefined JUndefined
       ∧ has_key (on_the_wire (body c)) "vector" = false.
Proof.
  apply (empty_embedding_searches_without_vector Sample.scripted Sample.rt
           Sample.defaults
           {| cq_query := JStr "q"; cq_category := JUndefined |}
           [Resolved Sample.ok; Resolved (JObj [("embeddings", JArr [])])]
           (JObj [("embeddings", JArr [])]));
    reflexivity.
Defined.

(** ** The web client *)

Section WebClient.
Import Web.

(** *** The input box *)

Lemma submit_sent disabled value p m :
  sent (submit disabled value p) = Some m →
  enabled disabled = true ∧ m = trim value ∧ m ≠ ""
  ∧ value_after (submit disabled value p) = "".
Proof.
  unfold submit.
  destruct (0 <? String.length (trim value)) eqn:Hlen; [|done].
  destruct (enabled disabled); [|done]. cbn.
  intros [= <-]. repeat split.
  intros Heq. by rewrite Heq in Hlen.
Qed.

Lemma submit_not_sent disabled value p :
  sent (submit disabled value p) = None →
  value_after (submit disabled value p) = value.
Proof.
  unfold submit. by destruct (_ && _).
Qed.

(** X18. The input box calls [onSend] only for Enter without Shift, only
    when it is not disabled, and only with the trimmed text, which is then
    not empty and has no white space at either end; it clears the text
    area exactly when it sends. Enter without Shift does what a click on
    the button does, and the button is disabled exactly when a click would
    send nothing. *)
Theorem chat_input_sends_trimmed_text disabled value e :
  (∀ m, sent (handleKeyDown disabled value e) = Some m →
        key e = "Enter" ∧ shiftKey e = false ∧ disabled ≠ Some true
        ∧ m = trim value ∧ m ≠ "" ∧ trimmed m
        ∧ value_after (handleKeyDown disabled value e) = "")
  ∧ (sent (handleKeyDown disabled value e) = None →
     value_after (handleKeyDown disabled value e) = value)
  ∧ (key e = "Enter" → shiftKey e = false →
     sent (handleKeyDown disabled value e) = sent (handleClick disabled value)
     ∧ value_after (handleKeyDown disabled value e)
       = value_after (handleClick disabled value))
  ∧ button_disabled disabled value
    = bool_decide (sent (handleClick disabled value) = None).
Proof.
  split; [|split; [|split]].
  - intros m. unfold handleKeyDown.
    destruct (String.eqb_spec (key e) "Enter") as [Hkey|]; [|done].
    destruct (shiftKey e); [done|]. cbn [andb negb].
    intros Hsent. destruct (submit_sent _ _ _ _ Hsent) as (Hen & -> & Hne & Hv).
    repeat split; try done.
    + intros ->. done.
    + apply trim_trimmed.
    + apply trim_trimmed.
  - unfold handleKeyDown.
    destruct (String.eqb (key e) "Enter" && negb (shiftKey e)); [|done].
    apply submit_not_sent.
  - intros Hkey Hshift. unfold handleKeyDown, handleClick.
    rewrite Hkey, Hshift. cbn [String.eqb Ascii.eqb Bool.eqb andb negb].
    unfold submit. by destruct (_ && _).
  - unfold button_disabled, handleClick, submit.
    destruct (String.length (trim value)); by destruct (enabled disabled).
Qed.

(** *** The page and the query route *)

Lemma chatQuery_valid_replies rt cfg req :
  truthy (cq_query req) = true →
  replies (λ resp, (∃ answer cits, resp = send 200 (chat_response answer cits))
                   ∨ resp = query_failure)
    (chatQuery rt cfg req).
Proof.
  intros Hq. unfold chatQuery. rewrite Hq. cbn [negb].
  apply replies_catch; [|intros err; by right].
  apply returns_only_bind. intros _.
  apply returns_only_bind. intros vectors.
  apply returns_only_bind. intros data.
  unfold afterSearch. apply returns_only_bind. intros len.
  destruct (is_zero len); [left; by eexists _, _|].
  destruct (hits_of data); try done.
  apply returns_only_bind. intros contexts.
  apply returns_only_bind. intros order.
  unfold answerFrom.
  apply returns_only_bind. intros cits.
  apply returns_only_bind. intros ctxs.
  apply returns_only_bind. intros prompt.
  apply returns_only_bind. intros raw.
  apply returns_only_bind. intros answer. left. by eexists _, _.
Qed.

Lemma received_fields body :
  nullish (on_the_wire body) = false →
  query_fields (on_the_wire body) = Ok (received body).
Proof. apply query_fields_of_body. Qed.

(** X19. Whatever a click on the send button of the page makes
    [handleSendMessage] do, when no chat has the empty identifier: there
    is a current chat, the text sent is the trimmed text of the box and is
    not empty, and the request body is [{query: text}] alone. The query
    route therefore never answers such a request with 400: it replies 200
    or with its fixed 500 body, and its search carries no category filter.
    The branch of [handleSendMessage] that creates a chat is never taken
    from the button. *)
Theorem page_posts_a_valid_query {W} (env : Env W) rt cfg (w : W)
    (st : AppState) value newId fresh id1 id2 (s : Sending) :
  Forall (λ c, chat_id c ≠ "") (chats st) →
  click_send st value newId fresh id1 id2 = Some s →
  ∃ chat first finish,
    currentChat st = Some chat
    ∧ currentChatId st = Some (chat_id chat)
    ∧ trim value ≠ ""
    ∧ s = Posts first (JObj [("query", JStr (trim value))]) finish
    ∧ let req := received (JObj [("query", JStr (trim value))]) in
      let r := run env (chatQuery rt cfg req) w in
      cq_category req = JUndefined
      ∧ (∃ resp, outcome r = Ok resp
                 ∧ (status resp = 200 ∨ resp = query_failure))
      ∧ Forall (λ c, site c = Search → prop (body c) "filter" = JUndefined)
          (calls (trace r)).
Proof.
  intros Hids. unfold click_send.
  destruct (sent (handleClick _ value)) as [content|] eqn:Hsent; [|done].
  intros [= <-]. unfold handleClick in Hsent.
  apply submit_sent in Hsent as (Hen & -> & Hne & _).
  unfold currentChat in *.
  destruct (currentChatId st) as [chatId|] eqn:Hcur; [|done].
  destruct (find _ (chats st)) as [chat|] eqn:Hfind; [|done].
  apply find_some in Hfind as [Hin Hid].
  apply bool_decide_eq_true in Hid. subst chatId.
  assert (Hchat : chat_id chat ≠ "").
  { rewrite Forall_forall in Hids. by apply Hids, list_elem_of_In. }
  unfold handleSendMessage. rewrite (bool_decide_true _ Hchat).
  eexists chat, _, _. repeat split.
  - done.
  - set (req := received _).
    assert (Hq : truthy (cq_query req) = true).
    { unfold req, received. cbn. by apply bool_decide_true. }
    destruct (replies_run env _ _ w (chatQuery_valid_replies rt cfg req Hq))
      as (resp & Hout & Hresp).
    exists resp. split; [done|].
    destruct Hresp as [(answer & cits & ->)| ->]; [by left|by right].
  - apply only_calls_run.
    apply (chatQuery_search_filter rt cfg
             (received (JObj [("query", JStr (trim value))]))).
Qed.

(** *** The chats of the page *)

Lemma messages_of_appendTo chatId m l id :
  messages_of id (appendTo chatId m l) =
  if decide (id = chatId) then (λ ms, ms ++ [m]) <$> messages_of id l
  else messages_of id l.
Proof.
  unfold messages_of, appendTo.
  induction l as [|c r IH]; [by destruct (decide _)|].
  cbn [map find].
  destruct (decide (chat_id c = chatId)) as [Hc|Hc].
  - rewrite (bool_decide_false (chat_id c ≠ chatId)) by (by intros ?).
    cbn [with_message chat_id]. rewrite Hc.
    destruct (decide (id = chatId)) as [->|Hid].
    + by rewrite bool_decide_true.
    + rewrite bool_decide_false by done. by rewrite IH.
  - rewrite (bool_decide_true (chat_id c ≠ chatId)) by done.
    destruct (decide (chat_id c = id)) as [Hci|Hci].
    + rewrite bool_decide_true by done. subst id. by rewrite decide_False.
    + rewrite bool_decide_false by done. apply IH.
Qed.

Lemma messages_of_appendUser chatId content fresh n l id :
  messages_of id (appendUser chatId content fresh n l) =
  if decide (id = chatId)
  then (λ ms, ms ++ [userMessage (fresh n) content]) <$> messages_of id l
  else messages_of id l.
Proof.
  unfold messages_of. revert n.
  induction l as [|c r IH]; intros n; [by destruct (decide _)|].
  cbn [appendUser find].
  destruct (decide (chat_id c = chatId)) as [Hc|Hc].
  - rewrite (bool_decide_false (chat_id c ≠ chatId)) by (by intros ?).
    cbn [find with_message chat_id]. rewrite Hc.
    destruct (decide (id = chatId)) as [->|Hid].
    + by rewrite bool_decide_true.
    + rewrite bool_decide_false by done. by rewrite IH.
  - rewrite (bool_decide_true (chat_id c ≠ chatId)) by done. cbn [find].
    destruct (decide (chat_id c = id)) as [Hci|Hci].
    + rewrite bool_decide_true by done. subst id. by rewrite decide_False.
    + rewrite bool_decide_false by done. apply IH.
Qed.

Lemma messages_of_page_events id evs st :
  Forall (λ ev, ev ≠ NewChat id) evs →
  messages_of id (chats (foldl page_step st evs)) = messages_of id (chats st).
Proof.
  intros Hevs. revert st.
  induction Hevs as [|ev evs Hev _ IH]; intros st; [done|].
  cbn [foldl]. rewrite IH. destruct ev as [id'|id']; [|done].
  unfold messages_of. cbn [page_step handleNewChat chats find newChat chat_id].
  rewrite bool_decide_false; [done|]. by intros ->.
Qed.

(** X20. The answer to a message goes to the chat it was sent from. When
    the page posts a message from the chat [chatId], that chat receives
    the user message at once and, when the request settles, the assistant
    message after it, whatever chats were created or selected in between;
    no other chat is changed by the answer, not even the one current when
    it arrives. The handler works on the chat identifier of the render it
    was created in, and its updaters on the list current when they are
    applied. *)
Theorem reply_reaches_the_sending_chat (st : AppState) chatId content newId
    fresh id1 id2 reply evs ms :
  chatId ≠ "" →
  currentChatId st = Some chatId →
  messages_of chatId (chats st) = Some ms →
  Forall (λ ev, ev ≠ NewChat chatId) evs →
  ∃ first finish,
    handleSendMessage (currentChatId st) content newId fresh id1 id2
    = Posts first (JObj [("query", JStr content)]) finish
    ∧ let posted := {| chats := first (chats st);
                       currentChatId := currentChatId st |} in
      let later := foldl page_step posted evs in
      let answered := finish reply (chats later) in
      messages_of chatId answered
      = Some (ms ++ [userMessage (fresh 0) content;
                     assistantMessage id1 id2 reply])
      ∧ ∀ id, id ≠ chatId →
              messages_of id answered = messages_of id (chats later).
Proof.
  intros Hne Hcur Hms Hevs. rewrite Hcur.
  unfold handleSendMessage. rewrite (bool_decide_true _ Hne).
  eexists _, _. split; [done|]. cbv zeta. split.
  - rewrite messages_of_appendTo, decide_True by done.
    rewrite messages_of_page_events by done. cbn [chats].
    rewrite messages_of_appendUser, decide_True by done.
    rewrite Hms. cbn. by rewrite <-app_assoc.
  - intros id Hid. by rewrite messages_of_appendTo, decide_False.
Qed.

(** *** Answers on the page *)

Lemma settled_200 payload :
  settled (send 200 payload) = Answered (on_the_wire payload).
Proof. done. Qed.

(** X21. What the page shows for a query, in every world and for every
    request: either the route replied 200 and the assistant message holds
    the answer and the citations of the reply, or it replied 400 or 500
    and the message is the fixed error text without citations. No detail
    of a failure is shown, and the second identifier is never used. *)
Theorem page_shows_answer_or_fixed_error {W} (env : Env W) rt cfg
    (req : ChatQueryRequest) (w : W) id1 id2 :
  ∃ resp, outcome (run env (chatQuery rt cfg req) w) = Ok resp
    ∧ ((∃ answer cits,
          resp = send 200 (chat_response answer cits)
          ∧ assistantMessage id1 id2 (settled resp)
            = {| msg_id := id1; msg_role := Assistant;
                 msg_content := JStr answer;
                 msg_citations := on_the_wire (JArr (citation_json <$> cits)) |})
       ∨ (status resp ≠ 200
          ∧ assistantMessage id1 id2 (settled resp) = errorMessage id1)).
Proof.
  destruct (truthy (cq_query req)) eqn:Hq.
  - destruct (replies_run env _ _ w (chatQuery_valid_replies rt cfg req Hq))
      as (resp & Hout & Hresp).
    exists resp. split; [done|].
    destruct Hresp as [(answer & cits & ->)| ->].
    + left. exists answer, cits. split; [done|]. by rewrite settled_200.
    + by right.
  - unfold chatQuery. rewrite Hq. cbn [negb].
    eexists. split; [done|]. by right.
Qed.

(** *** Citation links *)

Lemma gt_zero_JNat rt n : gt_zero rt (JNat n) = Ok (bool_decide (0 < n)).
Proof.
  unfold gt_zero, JNat, rmap, rbind. cbn [toNumber]. f_equal.
  apply bool_decide_ext.
  unfold Qclt, Qc_of_Z. cbn [Q2Qc this]. rewrite <-Zlt_Qlt. lia.
Qed.

Lemma mapi_from_seq {A B} (f : nat → B) from (xs : list A) :
  mapi_from from (λ _ idx, f idx) xs = f <$> seq from (length xs).
Proof.
  revert from. induction xs as [|x r IH]; intros from; [done|].
  cbn. by rewrite IH.
Qed.

(** X22. A bubble numbers its citation links [[1]] to [[n]] in the order
    of the citations: an assistant message with an array of [n] citations
    shows these [n] links, a user message or a message without citations
    none, and nothing throws. The text of the link [k] is the marker that
    the prompt puts before the context [k]. *)
Theorem bubble_links_number_the_citations rt role items :
  citation_links rt role (JArr items)
  = Ok (match role with
        | User => []
        | Assistant =>
            (λ k, "[" +:+ dec (k + 1) +:+ "]") <$> seq 0 (length items)
        end)
  ∧ citation_links rt role JUndefined = Ok []
  ∧ ∀ k ctx text,
      toStr rt ctx = Ok text →
      marked rt ctx k = Ok (("[" +:+ dec (k + 1) +:+ "]") +:+ " " +:+ text).
Proof.
  split; [|split].
  - destruct role; [done|]. unfold citation_links.
    cbn [truthy js_length rbind]. rewrite gt_zero_JNat. cbn [rbind].
    destruct items as [|x r]; [done|].
    rewrite bool_decide_true by (cbn; lia).
    unfold mapi. by rewrite mapi_from_seq.
  - by destruct role.
  - intros k ctx text Htext. unfold marked. rewrite Htext. cbn [rmap].
    f_equal. by rewrite !append_assoc.
Qed.
End WebClient.

Lemma page_posts_a_valid_query_witness :
  ∃ first finish,
    Web.click_send SamplePage.page "  what is the leave policy? " "chat-3"
      SamplePage.fresh "m-8" "m-9"
    = Some (Web.Posts first
              (JObj [("query", JStr "what is the leave policy?")]) finish).
Proof.
  destruct (page_posts_a_valid_query Sample.scripted Sample.rt Sample.defaults
              [] SamplePage.page "  what is the leave policy? " "chat-3"
              SamplePage.fresh "m-8" "m-9"
              (Web.Posts
                 (Web.appendUser "chat-1" "what is the leave policy?"
                    SamplePage.fresh 0)
                 (JObj [("query", JStr "what is the leave policy?")])
                 (λ reply, Web.appendTo "chat-1"
                             (Web.assistantMessage "m-8" "m-9" reply))))
    as (chat & first & finish & _ & _ & _ & Hs & _).
  - repeat constructor; discriminate.
  - reflexivity.
  - injection Hs as <- <-. eexists _, _. reflexivity.
Defined.

Lemma reply_reaches_the_sending_chat_witness :
  ∃ first finish,
    Web.handleSendMessage (Some "chat-1") "leave?" "chat-3" SamplePage.fresh
      "m-8" "m-9"
    = Web.Posts first (JObj [("query", JStr "leave?")]) finish
    ∧ Web.messages_of "chat-1"
        (finish Web.Failed
           (Web.chats
              (foldl Web.page_step
                 {| Web.chats := first (Web.chats SamplePage.page);
                    Web.currentChatId := Some "chat-1" |}
                 [Web.NewChat "chat-3"; Web.SelectChat "chat-2"])))
      = Some [SamplePage.greeting; Web.userMessage "m-1" "leave?";
              Web.errorMessage "m-8"].
Proof.
  destruct (reply_reaches_the_sending_chat SamplePage.page "chat-1" "leave?"
              "chat-3" SamplePage.fresh "m-8" "m-9" Web.Failed
              [Web.NewChat "chat-3"; Web.SelectChat "chat-2"]
              [SamplePage.greeting])
    as (first & finish & Hs & Hm & _).
  - discriminate.
  - reflexivity.
  - reflexivity.
  - repeat constructor; discriminate.
  - exists first, finish. split; [exact Hs | exact Hm].
Defined.
